(** * qparams: search requests carried in an HTTP query parameter

    A shallow embedding of the Go package [qparams] (operator registry,
    request model, configuration options, validation and the middleware),
    followed by the properties of the package that are stated in its
    specification.

    Conventions of the embedding:
    - Go's [int] is [Z]; the code only compares integers, it never does
      arithmetic on them.
    - [*int] and [*FilterGroup] are [option]: [None] is [nil].
    - Go strings and the string-based types [LogicalOperator],
      [RelationalOperator], [OrderDirection] are [string].
    - a Go [map[K]struct{}] is a reference: a value of type [mapref] is
      either [nil] or the address of a map object whose contents (a [gset])
      live in the heap.  Copying a map-typed variable or struct field copies
      the address, not the contents.
    - an [error] is the format site that produced it together with its
      arguments; [Error] renders the message. *)

From stdpp Require Import gmap strings list pretty.

Open Scope string_scope.
Open Scope list_scope.
Open Scope Z_scope.

(** ** Operator registry (filter.go, relational_operator.go, order clause) *)

Definition LogicalOperator : Type := string.
Definition RelationalOperator : Type := string.
Definition OrderDirection : Type := string.

Definition AndOperator : LogicalOperator := "and".
Definition OrOperator : LogicalOperator := "or".

Definition EqualsOperator : RelationalOperator := "eq".
Definition NotEqualsOperator : RelationalOperator := "ne".
Definition GreaterThanOperator : RelationalOperator := "gt".
Definition GreaterThanEqualsOperator : RelationalOperator := "gte".
Definition LowerThanOperator : RelationalOperator := "lt".
Definition LowerThanEqualsOperator : RelationalOperator := "lte".
Definition LikeOperator : RelationalOperator := "like".
Definition ILikeOperator : RelationalOperator := "ilike".
Definition InOperator : RelationalOperator := "in".

Definition OrderAsc : OrderDirection := "asc".
Definition OrderDesc : OrderDirection := "desc".

(** [func (o LogicalOperator) Symbol() string] *)
Definition LogicalOperator_Symbol (o : LogicalOperator) : string :=
  if String.eqb o OrOperator then OrOperator else AndOperator.

(** [func (o RelationalOperator) Symbol() string]: the [switch] compares
    [o] with the cases from top to bottom. *)
Definition RelationalOperator_Symbol (o : RelationalOperator) : string :=
  if String.eqb o NotEqualsOperator then "<>"
  else if String.eqb o GreaterThanOperator then ">"
  else if String.eqb o GreaterThanEqualsOperator then ">="
  else if String.eqb o LowerThanOperator then "<"
  else if String.eqb o LowerThanEqualsOperator then "<="
  else if String.eqb o LikeOperator then "like"
  else if String.eqb o ILikeOperator then "ilike"
  else if String.eqb o InOperator then "in"
  else "=".

(** [func (d OrderDirection) Symbol() string] *)
Definition OrderDirection_Symbol (d : OrderDirection) : string :=
  if String.eqb d OrderDesc then OrderDesc else OrderAsc.

(** The members of the package-level map literals [logicalOperators] and
    [relationalOperators]. *)
Definition logicalOperators_literal : list LogicalOperator :=
  [AndOperator; OrOperator].

Definition relationalOperators_literal : list RelationalOperator :=
  [EqualsOperator; NotEqualsOperator; GreaterThanOperator;
   GreaterThanEqualsOperator; LowerThanOperator; LowerThanEqualsOperator;
   LikeOperator; ILikeOperator; InOperator].

(** ** Request model (filter.go, search_request.go, order clause) *)

Record Filter : Type := mkFilter {
  Filter_Field : string;
  Filter_Op : RelationalOperator;
  Filter_Value : string
}.

(** [Groups []FilterGroup] nests the type in a list; the induction
    principle that reaches the nested groups is [FilterGroup_ind] below. *)
Unset Elimination Schemes.
Inductive FilterGroup : Type :=
  mkFilterGroup (Op : LogicalOperator) (Filters : list Filter)
                (Groups : list FilterGroup).
Set Elimination Schemes.

Definition FilterGroup_Op (g : FilterGroup) : LogicalOperator :=
  match g with mkFilterGroup op _ _ => op end.
Definition FilterGroup_Filters (g : FilterGroup) : list Filter :=
  match g with mkFilterGroup _ fs _ => fs end.
Definition FilterGroup_Groups (g : FilterGroup) : list FilterGroup :=
  match g with mkFilterGroup _ _ gs => gs end.

Record OrderClause : Type := mkOrderClause {
  OrderClause_Field : string;
  OrderClause_Direction : OrderDirection
}.

Record SearchRequest : Type := mkSearchRequest {
  Groups : option FilterGroup;
  OrderBy : list OrderClause;
  Limit : option Z;
  Offset : option Z
}.

(** [func ptr[T any](v T) *T] *)
Definition ptr {T : Type} (v : T) : option T := Some v.

(** ** Errors

    Every [errors.New] / [fmt.Errorf] site of qparams.go is a constructor
    carrying the arguments of the format; [ErrDecode] stands for whatever
    error [encoding/json] reports. *)

Inductive error : Type :=
| ErrLimitNegative
| ErrLimitMandatory
| ErrLimitExceeded (max : Z)
| ErrOffsetNegative
| ErrOrderField (field : string)
| ErrLogicalOperator (op : LogicalOperator)
| ErrFilterField (field : string)
| ErrRelationalOperator (op : RelationalOperator) (field : string)
| ErrMissingParam (param : string)
| ErrDecode (msg : string).

Section ErrorMessage.
(** [strconv.Quote], which implements the [%q] verb; it belongs to Go's
    standard library and is left abstract. *)
Variable Quote : string → string.

(** The message of an error, with the format strings of the source;
    [%d] prints a decimal integer. *)
Definition Error (e : error) : string :=
  match e with
  | ErrLimitNegative => "limit must be null or >= 0"
  | ErrLimitMandatory => "limit is mandatory"
  | ErrLimitExceeded max => "limit must be between 0 and " +:+ pretty max
  | ErrOffsetNegative => "offset must be null or >= 0"
  | ErrOrderField f => "field " +:+ Quote f +:+ " not allowed in order by"
  | ErrLogicalOperator op =>
      "logical operator " +:+ Quote op +:+ " not allowed"
  | ErrFilterField f => "field " +:+ Quote f +:+ " not allowed in filters"
  | ErrRelationalOperator op f =>
      "relational operator " +:+ Quote op +:+ " not allowed for field "
      +:+ Quote f
  | ErrMissingParam p => "missing " +:+ Quote p +:+ " query parameter"
  | ErrDecode msg => msg
  end.
End ErrorMessage.

(** The error taxonomy of the specification, and the class of each error
    the code produces. *)
Inductive ErrorKind : Type :=
| MissingParameter | MalformedPayload | InvalidLimit | InvalidOffset
| DisallowedOrderField | DisallowedLogicalOperator | DisallowedFilterField
| DisallowedRelationalOperator.

Definition kind (e : error) : ErrorKind :=
  match e with
  | ErrLimitNegative | ErrLimitMandatory | ErrLimitExceeded _ => InvalidLimit
  | ErrOffsetNegative => InvalidOffset
  | ErrOrderField _ => DisallowedOrderField
  | ErrLogicalOperator _ => DisallowedLogicalOperator
  | ErrFilterField _ => DisallowedFilterField
  | ErrRelationalOperator _ _ => DisallowedRelationalOperator
  | ErrMissingParam _ => MissingParameter
  | ErrDecode _ => MalformedPayload
  end.

(** ** Maps as shared objects

    [clear(m)], [m[k] = struct{}{}] and [_, ok := m[k]] on a
    [map[K]struct{}].  Writing into a [nil] map is a run-time panic;
    clearing or reading one is not. *)

Definition loc : Type := positive.
Definition mapref : Type := option loc.
Abbreviation Heap := (gmap loc (gset string)).

(** The contents of the map a reference points to ([nil] reads as empty). *)
Definition contents (h : Heap) (m : mapref) : gset string :=
  match m with
  | None => ∅
  | Some l => h !!! l
  end.

(** [_, ok := m[k]] *)
Definition map_has (h : Heap) (m : mapref) (k : string) : bool :=
  bool_decide (k ∈ contents h m).

(** Commands that read and write the heap and may panic ([None]). *)
Definition Exec (A : Type) : Type := Heap → option (A * Heap).

Definition ret {A : Type} (a : A) : Exec A := λ h, Some (a, h).

Definition bind {A B : Type} (c : Exec A) (k : A → Exec B) : Exec B :=
  λ h, match c h with
       | Some (a, h') => k a h'
       | None => None
       end.

(** [c ;;; k]: run [c], then [k] on the heap [c] left. *)
Notation "c ;;; k" := (bind c (λ _, k))
  (at level 100, right associativity).

Definition panic {A : Type} : Exec A := λ _, None.

(** [clear(m)] *)
Definition map_clear (m : mapref) : Exec unit :=
  λ h, match m with
       | None => Some (tt, h)
       | Some l => Some (tt, <[l := ∅]> h)
       end.

(** [m[k] = struct{}{}] *)
Definition map_set (m : mapref) (k : string) : Exec unit :=
  λ h, match m with
       | None => None
       | Some l => Some (tt, <[l := {[k]} ∪ h !!! l]> h)
       end.

(** [for _, v := range values { m[v] = struct{}{} }] *)
Fixpoint map_set_all (m : mapref) (values : list string) : Exec unit :=
  match values with
  | [] => ret tt
  | v :: rest => map_set m v ;;; map_set_all m rest
  end.

(** ** Transport: what the package uses of [net/http], [net/url], [context] *)

(** [http.ResponseWriter] is an interface; the default error handler uses
    [Header().Set], [WriteHeader] and [Write]. *)
Class ResponseWriter (W : Type) : Type := {
  Header_Set : string → string → W → W;
  WriteHeader : Z → W → W;
  Write : string → W → W
}.

(** Context keys are compared with their dynamic type: the package's
    [contextKey("search")] differs from a caller's plain string ["search"]. *)
Inductive Key : Type :=
| ContextKey (s : string)
| StringKey (s : string)
| OtherKey (n : nat).

#[global] Instance Key_eq_dec : EqDecision Key.
Proof. solve_decision. Defined.

Definition searchKey : Key := ContextKey "search".

(** A value of type [any] stored in a context: the nil interface, a
    [*SearchRequest] (possibly a nil pointer), or a value of another type. *)
Inductive Value : Type :=
| NilValue
| SearchRequestPtr (p : option SearchRequest)
| StringValue (s : string)
| IntValue (z : Z).

Inductive GoContext : Type :=
| Background
| WithValue (parent : GoContext) (key : Key) (val : Value).

(** [ctx.Value(key)]: the innermost binding of [key], or nil. *)
Fixpoint Context_Value (c : GoContext) (key : Key) : Value :=
  match c with
  | Background => NilValue
  | WithValue parent k v =>
      if decide (k = key) then v else Context_Value parent key
  end.

Record Request : Type := mkRequest {
  URL_Query : gmap string (list string);
  Request_Context : GoContext
}.

(** [url.Values.Get]: the first value of the key, or [""] when there is
    none. *)
Definition Values_Get (v : gmap string (list string)) (key : string)
  : string :=
  match v !! key with
  | Some (x :: _) => x
  | _ => ""
  end.

(** [r.WithContext(ctx)] *)
Definition Request_WithContext (r : Request) (ctx : GoContext) : Request :=
  {| URL_Query := URL_Query r; Request_Context := ctx |}.

(** [func GetSearchRequest(r *http.Request) *SearchRequest] *)
Definition GetSearchRequest (r : Request) : option SearchRequest :=
  match Context_Value (Request_Context r) searchKey with
  | NilValue => None
  | SearchRequestPtr s => s
  | _ => None
  end.

Definition StatusBadRequest : Z := 400.

(** [http.StatusText], for the one status code the package passes to it. *)
Definition StatusText (code : Z) : string :=
  if code =? 400 then "Bad Request" else "".

Section Package.
Context {W : Type} `{ResponseWriter W}.

Definition Handler : Type := W → Request → W.
Definition ErrorHandler : Type := W → Request → error → W.

(** ** Configuration (qparams.go) *)

Record Options : Type := mkOptions {
  queryParam : string;
  isSearchMandatory : bool;
  allowedLogicalOperators : mapref;
  allowedRelationalOperators : mapref;
  limit : option Z;
  errorHandler : ErrorHandler;
  allowedFilterFields : mapref;
  allowedOrderFields : mapref
}.

(** Package-level variables. *)
Record Globals : Type := mkGlobals {
  logicalOperators : mapref;
  relationalOperators : mapref;
  defaultQueryParam : string;
  defaultSearchMandatory : bool;
  defaultLogicalOperators : mapref;
  defaultRelationalOperators : mapref;
  defaultLimit : option Z;
  defaultErrorHandler : ErrorHandler;
  defaultFilterFields : mapref;
  defaultOrderFields : mapref
}.

(** The initial value of [defaultErrorHandler]; logging a failed write is
    not modelled. *)
Definition defaultErrorHandler_init : ErrorHandler :=
  λ w r _,
    Write (StatusText StatusBadRequest)
      (WriteHeader StatusBadRequest
         (Header_Set "Content-Type" "text/plain" w)).

(** Package initialisation: four map objects are allocated;
    [defaultLogicalOperators] and [defaultRelationalOperators] are
    initialised with the registry variables themselves. *)
Definition init_heap : Heap :=
  <[1%positive := list_to_set logicalOperators_literal]>
  (<[2%positive := list_to_set relationalOperators_literal]>
  (<[3%positive := ∅]>
  (<[4%positive := ∅]> ∅))).

Definition init_globals : Globals :=
  {| logicalOperators := Some 1%positive;
     relationalOperators := Some 2%positive;
     defaultQueryParam := "q";
     defaultSearchMandatory := true;
     defaultLogicalOperators := Some 1%positive;
     defaultRelationalOperators := Some 2%positive;
     defaultLimit := None;
     defaultErrorHandler := defaultErrorHandler_init;
     defaultFilterFields := Some 3%positive;
     defaultOrderFields := Some 4%positive |}.

Definition set_defaultQueryParam (v : string) (G : Globals) : Globals :=
  mkGlobals (logicalOperators G) (relationalOperators G) v
    (defaultSearchMandatory G) (defaultLogicalOperators G)
    (defaultRelationalOperators G) (defaultLimit G)
    (defaultErrorHandler G) (defaultFilterFields G) (defaultOrderFields G).

Definition set_defaultSearchMandatory (v : bool) (G : Globals) : Globals :=
  mkGlobals (logicalOperators G) (relationalOperators G)
    (defaultQueryParam G) v (defaultLogicalOperators G)
    (defaultRelationalOperators G) (defaultLimit G)
    (defaultErrorHandler G) (defaultFilterFields G) (defaultOrderFields G).

Definition set_defaultLimit (v : option Z) (G : Globals) : Globals :=
  mkGlobals (logicalOperators G) (relationalOperators G)
    (defaultQueryParam G) (defaultSearchMandatory G)
    (defaultLogicalOperators G) (defaultRelationalOperators G) v
    (defaultErrorHandler G) (defaultFilterFields G) (defaultOrderFields G).

Definition set_defaultErrorHandler (v : ErrorHandler) (G : Globals)
  : Globals :=
  mkGlobals (logicalOperators G) (relationalOperators G)
    (defaultQueryParam G) (defaultSearchMandatory G)
    (defaultLogicalOperators G) (defaultRelationalOperators G)
    (defaultLimit G) v (defaultFilterFields G) (defaultOrderFields G).

(** The [SetDefault...] functions.  Those for scalars assign the
    variable; those for sets clear and refill the map object the variable
    points to. *)
Definition SetDefaultQueryParam (value : string) (G : Globals)
  : Exec Globals :=
  ret (set_defaultQueryParam value G).

Definition SetDefaultSearchMandatory (value : bool) (G : Globals)
  : Exec Globals :=
  ret (set_defaultSearchMandatory value G).

Definition SetDefaultLogicalOperators (values : list LogicalOperator)
    (G : Globals) : Exec Globals :=
  map_clear (defaultLogicalOperators G) ;;;
  map_set_all (defaultLogicalOperators G) values ;;;
  ret G.

Definition SetDefaultRelationalOperators (values : list RelationalOperator)
    (G : Globals) : Exec Globals :=
  map_clear (defaultRelationalOperators G) ;;;
  map_set_all (defaultRelationalOperators G) values ;;;
  ret G.

Definition SetDefaultLimit (value : Z) (G : Globals) : Exec Globals :=
  if value <? 0 then ret (set_defaultLimit None G)
  else ret (set_defaultLimit (ptr value) G).

Definition SetDefaultErrorHandler (value : ErrorHandler) (G : Globals)
  : Exec Globals :=
  ret (set_defaultErrorHandler value G).

Definition SetDefaultFilterFields (values : list string) (G : Globals)
  : Exec Globals :=
  map_clear (defaultFilterFields G) ;;;
  map_set_all (defaultFilterFields G) values ;;;
  ret G.

Definition SetDefaultOrderFields (values : list string) (G : Globals)
  : Exec Globals :=
  map_clear (defaultOrderFields G) ;;;
  map_set_all (defaultOrderFields G) values ;;;
  ret G.

(** ** Functional options *)

Definition set_queryParam (v : string) (o : Options) : Options :=
  mkOptions v (isSearchMandatory o) (allowedLogicalOperators o)
    (allowedRelationalOperators o) (limit o) (errorHandler o)
    (allowedFilterFields o) (allowedOrderFields o).

Definition set_isSearchMandatory (v : bool) (o : Options) : Options :=
  mkOptions (queryParam o) v (allowedLogicalOperators o)
    (allowedRelationalOperators o) (limit o) (errorHandler o)
    (allowedFilterFields o) (allowedOrderFields o).

Definition set_limit (v : option Z) (o : Options) : Options :=
  mkOptions (queryParam o) (isSearchMandatory o)
    (allowedLogicalOperators o) (allowedRelationalOperators o) v
    (errorHandler o) (allowedFilterFields o) (allowedOrderFields o).

Definition set_errorHandler (v : ErrorHandler) (o : Options) : Options :=
  mkOptions (queryParam o) (isSearchMandatory o)
    (allowedLogicalOperators o) (allowedRelationalOperators o) (limit o)
    v (allowedFilterFields o) (allowedOrderFields o).

(** The Go type [Option], a function on a pointer to [Options]: an
    option updates the [Options] struct
    it is given and the map objects the struct points to. *)
Definition Option : Type := Options → Exec Options.

Definition WithQueryParam (value : string) : Option :=
  λ o, ret (set_queryParam value o).

Definition WithSearchMandatory (value : bool) : Option :=
  λ o, ret (set_isSearchMandatory value o).

Definition WithLogicalOperators (values : list LogicalOperator) : Option :=
  λ o,
    map_clear (allowedLogicalOperators o) ;;;
    map_set_all (allowedLogicalOperators o) values ;;;
    ret o.

Definition WithRelationalOperators (values : list RelationalOperator)
  : Option :=
  λ o,
    map_clear (allowedRelationalOperators o) ;;;
    map_set_all (allowedRelationalOperators o) values ;;;
    ret o.

Definition WithLimit (value : Z) : Option :=
  λ o,
    if value <? 0 then ret (set_limit None o)
    else ret (set_limit (ptr value) o).

Definition WithErrorHandler (h : ErrorHandler) : Option :=
  λ o, ret (set_errorHandler h o).

Definition WithFilterFields (fields : list string) : Option :=
  λ o,
    map_clear (allowedFilterFields o) ;;;
    map_set_all (allowedFilterFields o) fields ;;;
    ret o.

Definition WithExtraFilterFields (fields : list string) : Option :=
  λ o, map_set_all (allowedFilterFields o) fields ;;; ret o.

Definition WithOrderFields (fields : list string) : Option :=
  λ o,
    map_clear (allowedOrderFields o) ;;;
    map_set_all (allowedOrderFields o) fields ;;;
    ret o.

Definition WithExtraOrderFields (fields : list string) : Option :=
  λ o, map_set_all (allowedOrderFields o) fields ;;; ret o.

(** [for _, opt := range opts { opt(options) }] *)
Fixpoint apply_opts (opts : list Option) (options : Options)
  : Exec Options :=
  match opts with
  | [] => ret options
  | opt :: rest => bind (opt options) (apply_opts rest)
  end.

(** The struct literal at the top of [NewSearchHandler]: every field is
    initialised with the value of the corresponding package variable, so
    the four map fields receive the addresses held by the defaults. *)
Definition options_literal (G : Globals) : Options :=
  {| queryParam := defaultQueryParam G;
     isSearchMandatory := defaultSearchMandatory G;
     allowedLogicalOperators := defaultLogicalOperators G;
     allowedRelationalOperators := defaultRelationalOperators G;
     limit := defaultLimit G;
     errorHandler := defaultErrorHandler G;
     allowedFilterFields := defaultFilterFields G;
     allowedOrderFields := defaultOrderFields G |}.

(** The first half of [NewSearchHandler]: the options the returned
    middleware captures. *)
Definition NewSearchHandler_options (G : Globals) (opts : list Option)
  : Exec Options :=
  apply_opts opts (options_literal G).

(** ** Validation *)

Section Validate.
Variable h : Heap.
Variable opts : Options.

(** [for _, o := range s.OrderBy { ... }] *)
Fixpoint validateOrderBy (l : list OrderClause) : option error :=
  match l with
  | [] => None
  | o :: rest =>
      if negb (map_has h (allowedOrderFields opts) (OrderClause_Field o))
      then Some (ErrOrderField (OrderClause_Field o))
      else validateOrderBy rest
  end.

(** [for _, f := range g.Filters { ... }] *)
Fixpoint validateFilters (l : list Filter) : option error :=
  match l with
  | [] => None
  | f :: rest =>
      if negb (map_has h (allowedFilterFields opts) (Filter_Field f))
      then Some (ErrFilterField (Filter_Field f))
      else if negb (map_has h (allowedRelationalOperators opts)
                      (Filter_Op f))
      then Some (ErrRelationalOperator (Filter_Op f) (Filter_Field f))
      else validateFilters rest
  end.

(** The body of the closure [validateGroup] after its nil check; the
    recursive calls pass [&sg], which is never nil. *)
Fixpoint validateGroupBody (g : FilterGroup) : option error :=
  match g with
  | mkFilterGroup op filters groups =>
      if negb (map_has h (allowedLogicalOperators opts) op)
      then Some (ErrLogicalOperator op)
      else
        match validateFilters filters with
        | Some err => Some err
        | None =>
            (fix subgroups (gs : list FilterGroup) : option error :=
               match gs with
               | [] => None
               | sg :: rest =>
                   match validateGroupBody sg with
                   | Some err => Some err
                   | None => subgroups rest
                   end
               end) groups
        end
  end.

(** [validateGroup = func(g *FilterGroup) error] *)
Definition validateGroup (g : option FilterGroup) : option error :=
  match g with
  | None => None
  | Some g => validateGroupBody g
  end.

(** [func validateSearchRequest(s *SearchRequest, opts *Options) error] *)
Definition validateSearchRequest (s : SearchRequest) : option error :=
  if (match Limit s with Some l => l <? 0 | None => false end)
  then Some ErrLimitNegative
  else
    match
      (match limit opts with
       | Some max =>
           match Limit s with
           | None => Some ErrLimitMandatory
           | Some l =>
               if l >? max then Some (ErrLimitExceeded max) else None
           end
       | None => None
       end)
    with
    | Some err => Some err
    | None =>
        if (match Offset s with Some o => o <? 0 | None => false end)
        then Some ErrOffsetNegative
        else
          match validateOrderBy (OrderBy s) with
          | Some err => Some err
          | None => validateGroup (Groups s)
          end
    end.
End Validate.

(** ** Middleware *)

Section Middleware.
(** Strict decoding of the payload with [encoding/json]
    ([DisallowUnknownFields]); the decoder is outside the package. *)
Variable decode : string → error + SearchRequest.

(** The [http.HandlerFunc] returned by the middleware; [h] is the heap
    at the time of the call. *)
Definition ServeHTTP (options : Options) (next : Handler) (h : Heap)
  : Handler :=
  λ w r,
    let s := Values_Get (URL_Query r) (queryParam options) in
    if String.eqb s "" then
      if negb (isSearchMandatory options) then next w r
      else errorHandler options w r (ErrMissingParam (queryParam options))
    else
      match decode s with
      | inl err => errorHandler options w r err
      | inr search =>
          match validateSearchRequest h options search with
          | Some err => errorHandler options w r err
          | None =>
              let ctx :=
                WithValue (Request_Context r) searchKey
                  (SearchRequestPtr (Some search)) in
              next w (Request_WithContext r ctx)
          end
      end.

(** [func NewSearchHandler(opts ...Option) func(http.Handler) http.Handler] *)
Definition NewSearchHandler (G : Globals) (opts : list Option)
  : Exec (Handler → Heap → Handler) :=
  bind (NewSearchHandler_options G opts)
       (λ options, ret (ServeHTTP options)).
End Middleware.
End Package.

Arguments Handler W : clear implicits.
Arguments ErrorHandler W : clear implicits.
Arguments Options W : clear implicits.
Arguments Globals W : clear implicits.
Arguments Option W : clear implicits.

(** ** Structural induction on filter trees *)

Section FilterGroupInduction.
Variable P : FilterGroup → Prop.
Hypothesis Hgroup : ∀ op filters groups,
  Forall P groups → P (mkFilterGroup op filters groups).

Fixpoint FilterGroup_ind (g : FilterGroup) : P g :=
  match g with
  | mkFilterGroup op filters groups =>
      Hgroup op filters groups
        ((fix nested (gs : list FilterGroup) : Forall P gs :=
            match gs with
            | [] => @List.Forall_nil _ P
            | sg :: rest =>
                @List.Forall_cons _ P sg rest (FilterGroup_ind sg) (nested rest)
            end) groups)
  end.
End FilterGroupInduction.

(** ** The checks of the Validation Engine, in the specification's words

    Every violation of a request, listed in the order in which the
    specification says the checks are made: limit, offset, order clauses
    in the order supplied, then the filter tree in depth-first pre-order
    (a group's operator, its filters in listed order with the field before
    the operator, its nested groups in listed order). *)

Section Violations.
Context {W : Type} `{ResponseWriter W}.
Variable h : Heap.
Variable opts : Options W.

Definition limitViolations (s : SearchRequest) : list error :=
  match Limit s with
  | Some l => if l <? 0 then [ErrLimitNegative] else []
  | None => []
  end ++
  match limit opts, Limit s with
  | Some max, None => [ErrLimitMandatory]
  | Some max, Some l => if l >? max then [ErrLimitExceeded max] else []
  | None, _ => []
  end.

Definition offsetViolations (s : SearchRequest) : list error :=
  match Offset s with
  | Some o => if o <? 0 then [ErrOffsetNegative] else []
  | None => []
  end.

Definition orderClauseViolations (o : OrderClause) : list error :=
  if map_has h (allowedOrderFields opts) (OrderClause_Field o) then []
  else [ErrOrderField (OrderClause_Field o)].

Definition filterViolations (f : Filter) : list error :=
  (if map_has h (allowedFilterFields opts) (Filter_Field f) then []
   else [ErrFilterField (Filter_Field f)]) ++
  (if map_has h (allowedRelationalOperators opts) (Filter_Op f) then []
   else [ErrRelationalOperator (Filter_Op f) (Filter_Field f)]).

Fixpoint groupViolations (g : FilterGroup) : list error :=
  match g with
  | mkFilterGroup op filters groups =>
      (if map_has h (allowedLogicalOperators opts) op then []
       else [ErrLogicalOperator op]) ++
      concat (map filterViolations filters) ++
      concat (map groupViolations groups)
  end.

Definition treeViolations (root : option FilterGroup) : list error :=
  match root with
  | None => []
  | Some g => groupViolations g
  end.

Definition requestViolations (s : SearchRequest) : list error :=
  limitViolations s ++ offsetViolations s ++
  concat (map orderClauseViolations (OrderBy s)) ++
  treeViolations (Groups s).
End Violations.

(** Replacing the direction of the [i]-th order clause of a request. *)
Definition setDirection (i : nat) (d : OrderDirection) (s : SearchRequest)
  : SearchRequest :=
  {| Groups := Groups s;
     OrderBy :=
       alter (λ o, mkOrderClause (OrderClause_Field o) d) i (OrderBy s);
     Limit := Limit s;
     Offset := Offset s |}.

(** ** A response recorder, in the manner of [httptest.ResponseRecorder] *)

Record ResponseRecorder : Type := mkRecorder {
  Rec_Header : gmap string string;
  Rec_Code : Z;
  Rec_Body : string
}.

#[global] Instance ResponseRecorder_writer : ResponseWriter ResponseRecorder :=
  {| Header_Set := λ k v w,
       mkRecorder (<[k := v]> (Rec_Header w)) (Rec_Code w) (Rec_Body w);
     WriteHeader := λ code w,
       mkRecorder (Rec_Header w) code (Rec_Body w);
     Write := λ b w,
       mkRecorder (Rec_Header w) (Rec_Code w) (Rec_Body w +:+ b) |}.

Definition NewRecorder : ResponseRecorder := mkRecorder ∅ 200 "".

(** A downstream handler that answers 200 and reports whether a search
    request reached it. *)
Definition probeHandler : Handler ResponseRecorder :=
  λ w r,
    Write (match GetSearchRequest r with
           | Some _ => "search request"
           | None => "no search provided"
           end)
      (WriteHeader 200 w).

(** A decoder that accepts no payload, and one that accepts every payload
    as the empty request. *)
Definition decode_reject : string → error + SearchRequest :=
  λ _, inl (ErrDecode "invalid character").

Definition decode_empty : string → error + SearchRequest :=
  λ _, inr (mkSearchRequest None [] None None).

(** ** Traversals of a filter tree *)

(** The logical operators of a group and of all the groups nested in it. *)
Fixpoint tree_operators (g : FilterGroup) : list LogicalOperator :=
  match g with
  | mkFilterGroup op _ groups => op :: concat (map tree_operators groups)
  end.

(** The filters of a group and of all the groups nested in it. *)
Fixpoint tree_filters (g : FilterGroup) : list Filter :=
  match g with
  | mkFilterGroup _ filters groups =>
      filters ++ concat (map tree_filters groups)
  end.

(** Rewriting every filter of a tree. *)
Fixpoint mapFilters (f : Filter → Filter) (g : FilterGroup) : FilterGroup :=
  match g with
  | mkFilterGroup op filters groups =>
      mkFilterGroup op (map f filters) (map (mapFilters f) groups)
  end.

(** The request in which the value of every filter [f] is replaced by
    [newValue f]. *)
Definition withValues (newValue : Filter → string) (s : SearchRequest)
  : SearchRequest :=
  {| Groups :=
       option_map
         (mapFilters
            (λ f, mkFilter (Filter_Field f) (Filter_Op f) (newValue f)))
         (Groups s);
     OrderBy := OrderBy s;
     Limit := Limit s;
     Offset := Offset s |}.

(** ** The exported constructors of options and the exported setters *)

Inductive PackageOption {W : Type} : Option W → Prop :=
| PO_QueryParam (value : string) : PackageOption (WithQueryParam value)
| PO_SearchMandatory (value : bool) :
    PackageOption (WithSearchMandatory value)
| PO_LogicalOperators (values : list LogicalOperator) :
    PackageOption (WithLogicalOperators values)
| PO_RelationalOperators (values : list RelationalOperator) :
    PackageOption (WithRelationalOperators values)
| PO_Limit (value : Z) : PackageOption (WithLimit value)
| PO_ErrorHandler (eh : ErrorHandler W) : PackageOption (WithErrorHandler eh)
| PO_FilterFields (fields : list string) :
    PackageOption (WithFilterFields fields)
| PO_ExtraFilterFields (fields : list string) :
    PackageOption (WithExtraFilterFields fields)
| PO_OrderFields (fields : list string) :
    PackageOption (WithOrderFields fields)
| PO_ExtraOrderFields (fields : list string) :
    PackageOption (WithExtraOrderFields fields).

Inductive PackageSetter {W : Type} : (Globals W → Exec (Globals W)) → Prop :=
| PS_QueryParam (value : string) : PackageSetter (SetDefaultQueryParam value)
| PS_SearchMandatory (value : bool) :
    PackageSetter (SetDefaultSearchMandatory value)
| PS_LogicalOperators (values : list LogicalOperator) :
    PackageSetter (SetDefaultLogicalOperators values)
| PS_RelationalOperators (values : list RelationalOperator) :
    PackageSetter (SetDefaultRelationalOperators values)
| PS_Limit (value : Z) : PackageSetter (SetDefaultLimit value)
| PS_ErrorHandler (eh : ErrorHandler W) :
    PackageSetter (SetDefaultErrorHandler eh)
| PS_FilterFields (values : list string) :
    PackageSetter (SetDefaultFilterFields values)
| PS_OrderFields (values : list string) :
    PackageSetter (SetDefaultOrderFields values).

(** The four map fields of a configuration hold map objects (none is nil). *)
Definition maps_allocated {W : Type} (o : Options W) : Prop :=
  is_Some (allowedLogicalOperators o) ∧
  is_Some (allowedRelationalOperators o) ∧
  is_Some (allowedFilterFields o) ∧
  is_Some (allowedOrderFields o).

(** Two configurations point to the same four map objects. *)
Definition same_maps {W : Type} (o o' : Options W) : Prop :=
  allowedLogicalOperators o' = allowedLogicalOperators o ∧
  allowedRelationalOperators o' = allowedRelationalOperators o ∧
  allowedFilterFields o' = allowedFilterFields o ∧
  allowedOrderFields o' = allowedOrderFields o.

(** The addresses the map fields of a configuration hold. *)
Definition option_maps {W : Type} (o : Options W) : list mapref :=
  [allowedLogicalOperators o; allowedRelationalOperators o;
   allowedFilterFields o; allowedOrderFields o].

(** A ceiling is absent or not negative. *)
Definition limit_wf (m : option Z) : Prop :=
  match m with
  | Some max => 0 ≤ max
  | None => True
  end.

(** The map variables of the package hold map objects. *)
Definition defaults_allocated {W : Type} (G : Globals W) : Prop :=
  is_Some (defaultLogicalOperators G) ∧
  is_Some (defaultRelationalOperators G) ∧
  is_Some (defaultFilterFields G) ∧
  is_Some (defaultOrderFields G).

(** Two states of the package variables hold the same map addresses. *)
Definition same_default_maps {W : Type} (G G' : Globals W) : Prop :=
  logicalOperators G' = logicalOperators G ∧
  relationalOperators G' = relationalOperators G ∧
  defaultLogicalOperators G' = defaultLogicalOperators G ∧
  defaultRelationalOperators G' = defaultRelationalOperators G ∧
  defaultFilterFields G' = defaultFilterFields G ∧
  defaultOrderFields G' = defaultOrderFields G.

(** [(h', o')] allows whatever [(h, o)] allows. *)
Definition at_least_as_permissive {W : Type}
    (h : Heap) (o : Options W) (h' : Heap) (o' : Options W) : Prop :=
  contents h (allowedLogicalOperators o)
    ⊆ contents h' (allowedLogicalOperators o') ∧
  contents h (allowedRelationalOperators o)
    ⊆ contents h' (allowedRelationalOperators o') ∧
  contents h (allowedFilterFields o)
    ⊆ contents h' (allowedFilterFields o') ∧
  contents h (allowedOrderFields o)
    ⊆ contents h' (allowedOrderFields o') ∧
  match limit o', limit o with
  | None, _ => True
  | Some max', Some max => max ≤ max'
  | Some _, None => False
  end.

(** What an error found in a filter tree says about the tree. *)
Definition tree_cause {W : Type} (h : Heap) (opts : Options W)
    (g : FilterGroup) (e : error) : Prop :=
  match e with
  | ErrLogicalOperator op =>
      op ∈ tree_operators g ∧
      map_has h (allowedLogicalOperators opts) op = false
  | ErrFilterField field =>
      ∃ f, f ∈ tree_filters g ∧ Filter_Field f = field ∧
           map_has h (allowedFilterFields opts) field = false
  | ErrRelationalOperator op field =>
      ∃ f, f ∈ tree_filters g ∧ Filter_Op f = op ∧ Filter_Field f = field ∧
           map_has h (allowedRelationalOperators opts) op = false
  | _ => False
  end.

(** The response of the initial error handler. *)
Definition badRequestResponse {W : Type} `{ResponseWriter W} (w : W) : W :=
  Write "Bad Request"
    (WriteHeader 400 (Header_Set "Content-Type" "text/plain" w)).

(** * Properties *)

(** ** Operator registry *)

Lemma eqb_false_of_ne (a b : string) : a ≠ b → String.eqb a b = false.
Proof. intros Hne. by apply String.eqb_neq. Qed.

(** C8. Symbol lookup is total and falls back on a default: a logical
    operator other than "or" renders as "and", a relational operator outside
    the nine registered ones renders as "=", a direction other than "desc"
    renders as "asc"; the registered values render as their canonical
    symbols. *)
Theorem Symbol_total_with_defaults
    (l : LogicalOperator) (r : RelationalOperator) (d : OrderDirection) :
  (l ≠ "or" → LogicalOperator_Symbol l = "and") ∧
  (r ∉ relationalOperators_literal → RelationalOperator_Symbol r = "=") ∧
  (d ≠ "desc" → OrderDirection_Symbol d = "asc") ∧
  map LogicalOperator_Symbol logicalOperators_literal = ["and"; "or"] ∧
  map RelationalOperator_Symbol relationalOperators_literal =
    ["="; "<>"; ">"; ">="; "<"; "<="; "like"; "ilike"; "in"] ∧
  map OrderDirection_Symbol [OrderAsc; OrderDesc] = ["asc"; "desc"].
Proof.
  repeat split; try reflexivity.
  - intros Hl. unfold LogicalOperator_Symbol, OrOperator.
    by rewrite (eqb_false_of_ne l "or").
  - intros Hr. unfold relationalOperators_literal in Hr.
    repeat (apply not_elem_of_cons in Hr; destruct Hr as [? Hr]).
    unfold RelationalOperator_Symbol.
    by rewrite !eqb_false_of_ne.
  - intros Hd. unfold OrderDirection_Symbol, OrderDesc.
    by rewrite (eqb_false_of_ne d "desc").
Qed.

Lemma Symbol_total_with_defaults_witness :
  LogicalOperator_Symbol "xor" = "and" ∧
  RelationalOperator_Symbol "between" = "=" ∧
  OrderDirection_Symbol "foo" = "asc".
Proof.
  destruct (Symbol_total_with_defaults "xor" "between" "foo")
    as (Hl & Hr & Hd & _).
  split; [apply Hl; discriminate |].
  split; [apply Hr | apply Hd; discriminate].
  unfold relationalOperators_literal.
  repeat (apply not_elem_of_cons; split; [discriminate |]).
  apply not_elem_of_nil.
Defined.

(** ** Retrieval *)

(** C7. [GetSearchRequest] returns nil when nothing is stored under the
    reserved key or when the stored value is not a [*SearchRequest], and
    the stored pointer otherwise; being a function, it has a result for
    every request.  In particular it returns what the middleware attached,
    and bindings of other keys do not affect it. *)
Theorem GetSearchRequest_total (r : Request) :
  match Context_Value (Request_Context r) searchKey with
  | NilValue => GetSearchRequest r = None
  | SearchRequestPtr p => GetSearchRequest r = p
  | StringValue _ | IntValue _ => GetSearchRequest r = None
  end ∧
  GetSearchRequest (mkRequest (URL_Query r) Background) = None ∧
  (∀ s : SearchRequest,
     GetSearchRequest
       (Request_WithContext r
          (WithValue (Request_Context r) searchKey
             (SearchRequestPtr (Some s)))) = Some s) ∧
  (∀ (key : string) (v : Value),
     GetSearchRequest
       (Request_WithContext r
          (WithValue (Request_Context r) (StringKey key) v)) =
     GetSearchRequest r).
Proof.
  unfold GetSearchRequest. split; [| split; [| split]].
  - by destruct (Context_Value (Request_Context r) searchKey).
  - reflexivity.
  - intros s. cbn [Request_WithContext Request_Context Context_Value].
    by rewrite decide_True.
  - intros key v. cbn [Request_WithContext Request_Context Context_Value].
    by rewrite decide_False.
Qed.

(** ** Validation: the code reports the first violation *)

Lemma head_app_first {A : Type} (l1 l2 : list A) :
  head (l1 ++ l2) =
  match head l1 with
  | Some x => Some x
  | None => head l2
  end.
Proof. by destruct l1. Qed.

Section ValidationFacts.
Context {W : Type} `{ResponseWriter W}.
Variable h : Heap.
Variable opts : Options W.

Lemma validateOrderBy_first (l : list OrderClause) :
  validateOrderBy h opts l =
  head (concat (map (orderClauseViolations h opts) l)).
Proof.
  induction l as [| o rest IH]; [done |].
  simpl. rewrite head_app_first. unfold orderClauseViolations at 1.
  by destruct (map_has h (allowedOrderFields opts) (OrderClause_Field o)).
Qed.

Lemma validateFilters_first (l : list Filter) :
  validateFilters h opts l =
  head (concat (map (filterViolations h opts) l)).
Proof.
  induction l as [| f rest IH]; [done |].
  simpl. rewrite head_app_first. unfold filterViolations at 1.
  destruct (map_has h (allowedFilterFields opts) (Filter_Field f));
    [| done].
  by destruct (map_has h (allowedRelationalOperators opts) (Filter_Op f)).
Qed.

Lemma validateGroupBody_first (g : FilterGroup) :
  validateGroupBody h opts g = head (groupViolations h opts g).
Proof.
  induction g as [op filters groups IH] using FilterGroup_ind.
  simpl. rewrite head_app_first.
  destruct (map_has h (allowedLogicalOperators opts) op); [| done].
  simpl. rewrite head_app_first, <- validateFilters_first.
  destruct (validateFilters h opts filters) as [err |]; [done |].
  induction IH as [| sg rest Hsg _ IHrest]; [done |].
  simpl. rewrite head_app_first, <- Hsg.
  by destruct (validateGroupBody h opts sg).
Qed.

Lemma validateGroup_first (root : option FilterGroup) :
  validateGroup h opts root = head (treeViolations h opts root).
Proof. destruct root; [apply validateGroupBody_first | done]. Qed.

Lemma validateSearchRequest_first (s : SearchRequest) :
  validateSearchRequest h opts s = head (requestViolations h opts s).
Proof.
  unfold validateSearchRequest, requestViolations.
  rewrite !head_app_first, <- validateOrderBy_first, <- validateGroup_first.
  unfold limitViolations, offsetViolations. rewrite head_app_first.
  destruct (Limit s) as [l |], (limit opts) as [max |],
    (Offset s) as [o |]; simpl;
    repeat (match goal with
            | |- context [?a <? ?b] => destruct (a <? b)
            | |- context [?a >? ?b] => destruct (a >? b)
            end; simpl); done.
Qed.
End ValidationFacts.

(** With the configuration of a handler built without options right after
    package initialisation, the operator of a nested group is checked. *)
Example validate_with_defaults_nested :
  validateSearchRequest init_heap
    (options_literal (W := ResponseRecorder) init_globals)
    (mkSearchRequest
       (Some (mkFilterGroup "and" [] [mkFilterGroup "xor" [] []]))
       [] None None)
  = Some (ErrLogicalOperator "xor").
Proof. vm_compute. reflexivity. Qed.

Lemma subgroups_first_failure {W : Type} `{ResponseWriter W}
    (h : Heap) (opts : Options W) (pre post : list FilterGroup)
    (inner : FilterGroup) (err : error) :
  Forall (λ sg, validateGroupBody h opts sg = None) pre →
  validateGroupBody h opts inner = Some err →
  head (concat (map (groupViolations h opts) (pre ++ inner :: post)))
  = Some err.
Proof.
  intros Hpre Hinner.
  induction Hpre as [| sg rest Hsg _ IH]; simpl; rewrite head_app_first.
  - by rewrite <- validateGroupBody_first, Hinner.
  - by rewrite <- validateGroupBody_first, Hsg.
Qed.

(** C2. The filter tree is validated depth-first in pre-order from the root
    group; a nil root is valid.  The result is the first violation of the
    traversal (group operator, then each filter's field and operator in
    listed order, then the nested groups in listed order), nothing when
    there is none.  A disallowed operator of a nested group is reported
    when everything checked before it is allowed, and the error for a
    relational operator names the operator and the field. *)
Theorem validateGroup_preorder_first_violation {W : Type} `{ResponseWriter W}
    (h : Heap) (opts : Options W) :
  validateGroup h opts None = None ∧
  (∀ g, validateGroup h opts (Some g) = head (groupViolations h opts g)) ∧
  (∀ op filters groups,
     groupViolations h opts (mkFilterGroup op filters groups) =
     (if map_has h (allowedLogicalOperators opts) op then []
      else [ErrLogicalOperator op]) ++
     concat (map (λ f,
       (if map_has h (allowedFilterFields opts) (Filter_Field f) then []
        else [ErrFilterField (Filter_Field f)]) ++
       (if map_has h (allowedRelationalOperators opts) (Filter_Op f) then []
        else [ErrRelationalOperator (Filter_Op f) (Filter_Field f)]))
       filters) ++
     concat (map (groupViolations h opts) groups)) ∧
  (∀ op filters pre inner post,
     map_has h (allowedLogicalOperators opts) op = true →
     validateFilters h opts filters = None →
     Forall (λ sg, validateGroupBody h opts sg = None) pre →
     map_has h (allowedLogicalOperators opts) (FilterGroup_Op inner) = false →
     validateGroup h opts
       (Some (mkFilterGroup op filters (pre ++ inner :: post)))
     = Some (ErrLogicalOperator (FilterGroup_Op inner))) ∧
  (∀ (Quote : string → string) op field,
     Error Quote (ErrRelationalOperator op field) =
     "relational operator " +:+ Quote op +:+ " not allowed for field "
     +:+ Quote field).
Proof.
  split; [done |].
  split; [intros g; apply validateGroupBody_first |].
  split; [done |].
  split; [| done].
  intros op filters pre inner post Hop Hfilters Hpre Hinner.
  simpl. rewrite Hop. simpl. rewrite Hfilters.
  assert (Hsub : ∀ gs,
    (fix subgroups (gs : list FilterGroup) : option error :=
       match gs with
       | [] => None
       | sg :: rest =>
           match validateGroupBody h opts sg with
           | Some err => Some err
           | None => subgroups rest
           end
       end) gs = head (concat (map (groupViolations h opts) gs))).
  { induction gs as [| sg rest IH]; [done |].
    simpl. rewrite head_app_first, <- validateGroupBody_first.
    by destruct (validateGroupBody h opts sg). }
  rewrite Hsub.
  apply subgroups_first_failure; [done |].
  destruct inner as [iop ifs igs]. simpl in *. by rewrite Hinner.
Qed.

Lemma validateGroup_preorder_first_violation_witness :
  validateGroup init_heap
    (options_literal (W := ResponseRecorder) init_globals)
    (Some (mkFilterGroup "and" []
             ([mkFilterGroup "or" [] []] ++
              mkFilterGroup "xor" [] [] :: [])))
  = Some (ErrLogicalOperator "xor").
Proof.
  destruct (validateGroup_preorder_first_violation init_heap
              (options_literal (W := ResponseRecorder) init_globals))
    as (_ & _ & _ & Hnested & _).
  apply (Hnested "and" [] [mkFilterGroup "or" [] []]
           (mkFilterGroup "xor" [] []) []).
  - vm_compute. reflexivity.
  - reflexivity.
  - repeat constructor.
  - vm_compute. reflexivity.
Defined.

(** C3. Validation returns nothing or exactly one error, the first
    violation in the fixed order of checks: limit, then offset, then the
    order clauses in the order supplied, then the filter tree. *)
Theorem validateSearchRequest_fail_fast_order {W : Type} `{ResponseWriter W}
    (h : Heap) (opts : Options W) (s : SearchRequest) :
  validateSearchRequest h opts s =
  head (limitViolations opts s ++ offsetViolations s ++
        concat (map (orderClauseViolations h opts) (OrderBy s)) ++
        treeViolations h opts (Groups s)) ∧
  (validateSearchRequest h opts s = None ↔
   limitViolations opts s = [] ∧ offsetViolations s = [] ∧
   concat (map (orderClauseViolations h opts) (OrderBy s)) = [] ∧
   treeViolations h opts (Groups s) = []).
Proof.
  pose proof (validateSearchRequest_first h opts s) as Hfirst.
  unfold requestViolations in Hfirst.
  split; [done |].
  rewrite Hfirst, head_None.
  split.
  - intros Happ.
    apply app_eq_nil in Happ as [-> Happ].
    apply app_eq_nil in Happ as [-> Happ].
    by apply app_eq_nil in Happ as [-> ->].
  - by intros (-> & -> & -> & ->).
Qed.

(** ** Pagination *)

(** Ceilings installed by [WithLimit] are never negative. *)
Lemma WithLimit_nonnegative {W : Type} `{ResponseWriter W}
    (value : Z) (o : Options W) (h : Heap) :
  ∃ o', WithLimit value o h = Some (o', h) ∧
        match limit o' with
        | Some max => 0 ≤ max ∧ max = value
        | None => value < 0
        end.
Proof.
  unfold WithLimit. destruct (Z.ltb_spec value 0).
  - eexists. split; [reflexivity |]. simpl. lia.
  - eexists. split; [reflexivity |]. simpl. lia.
Qed.

(** The checks are made in order: a request whose limit and offset are both
    negative is rejected for its limit. *)
Example limit_checked_before_offset :
  validateSearchRequest init_heap
    (options_literal (W := ResponseRecorder) init_globals)
    (mkSearchRequest None [] (Some (-1)) (Some (-1)))
  = Some ErrLimitNegative.
Proof. vm_compute. reflexivity. Qed.

(** C4. Pagination, check by check in the order of the code.  A negative
    limit is rejected with the limit error.  With a ceiling configured, a
    request without limit is rejected ("mandatory"), and one whose limit
    passed the sign check and exceeds the ceiling is rejected with the
    limit error whose message cites the ceiling.  A negative offset is
    always rejected: with the offset error when the limit checks pass,
    and with the error of the limit check that fails before it otherwise.
    Without ceiling, a request without limit and offset passes the
    pagination checks. *)
Theorem pagination_checks {W : Type} `{ResponseWriter W}
    (h : Heap) (opts : Options W) (s : SearchRequest) :
  (∀ l, Limit s = Some l → l < 0 →
     validateSearchRequest h opts s = Some ErrLimitNegative) ∧
  (∀ max, limit opts = Some max → Limit s = None →
     validateSearchRequest h opts s = Some ErrLimitMandatory) ∧
  (∀ max l, limit opts = Some max → Limit s = Some l → l > max →
     (0 ≤ l ∨ 0 ≤ max →
      validateSearchRequest h opts s = Some (ErrLimitExceeded max)) ∧
     ∃ e, validateSearchRequest h opts s = Some e ∧ kind e = InvalidLimit) ∧
  (∀ o, Offset s = Some o → o < 0 →
     (limitViolations opts s = [] →
      validateSearchRequest h opts s = Some ErrOffsetNegative) ∧
     (limitViolations opts s ≠ [] →
      ∃ e, validateSearchRequest h opts s = Some e ∧ kind e = InvalidLimit)) ∧
  (limitViolations opts s = [] ↔
   match Limit s, limit opts with
   | Some l, Some max => 0 ≤ l ≤ max
   | Some l, None => 0 ≤ l
   | None, Some _ => False
   | None, None => True
   end) ∧
  (limit opts = None → Limit s = None → Offset s = None →
     validateSearchRequest h opts s =
     head (concat (map (orderClauseViolations h opts) (OrderBy s)) ++
           treeViolations h opts (Groups s))) ∧
  kind ErrLimitNegative = InvalidLimit ∧
  kind ErrLimitMandatory = InvalidLimit ∧
  kind ErrOffsetNegative = InvalidOffset ∧
  (∀ (Quote : string → string) max,
     kind (ErrLimitExceeded max) = InvalidLimit ∧
     Error Quote (ErrLimitExceeded max) =
     "limit must be between 0 and " +:+ pretty max).
Proof.
  pose proof (validateSearchRequest_first h opts s) as Hfirst.
  unfold requestViolations in Hfirst.
  repeat match goal with |- _ ∧ _ => split end; try done.
  - intros l Hl Hneg. unfold validateSearchRequest. rewrite Hl.
    by destruct (Z.ltb_spec l 0); [| lia].
  - intros max Hmax Hl. unfold validateSearchRequest. by rewrite Hl, Hmax.
  - intros max l Hmax Hl Hgt. split.
    + intros Hpos. unfold validateSearchRequest. rewrite Hl, Hmax.
      destruct (Z.ltb_spec l 0); [lia |].
      by destruct (Z.gtb_spec l max); [| lia].
    + unfold validateSearchRequest. rewrite Hl, Hmax.
      destruct (Z.ltb_spec l 0); [by eexists |].
      destruct (Z.gtb_spec l max); [by eexists | lia].
  - intros o Ho Hneg. split.
    + intros Hnil. rewrite Hfirst, Hnil. unfold offsetViolations.
      rewrite Ho. by destruct (Z.ltb_spec o 0); [| lia].
    + intros Hne. rewrite Hfirst.
      destruct (limitViolations opts s) as [| e rest] eqn:Hviol; [done |].
      exists e. split; [done |].
      unfold limitViolations in Hviol.
      destruct (Limit s) as [l |], (limit opts) as [max |]; simpl in Hviol;
        repeat match type of Hviol with
               | context [?a <? ?b] => destruct (a <? b)
               | context [?a >? ?b] => destruct (a >? b)
               end; simpl in Hviol; by simplify_eq.
  - unfold limitViolations.
    destruct (Limit s) as [l |], (limit opts) as [max |]; simpl;
      try (destruct (Z.ltb_spec l 0)); try (destruct (Z.gtb_spec l max));
      simpl; split; try done; try lia.
  - intros Hmax Hl Ho. rewrite Hfirst.
    unfold limitViolations, offsetViolations. by rewrite Hmax, Hl, Ho.
Qed.

Lemma pagination_checks_witness :
  validateSearchRequest init_heap
    (set_limit (Some 10) (options_literal (W := ResponseRecorder) init_globals))
    (mkSearchRequest None [] (Some 1000) None)
  = Some (ErrLimitExceeded 10) ∧
  validateSearchRequest init_heap
    (options_literal (W := ResponseRecorder) init_globals)
    (mkSearchRequest None [] (Some 10) (Some (-5)))
  = Some ErrOffsetNegative.
Proof.
  split.
  - destruct (pagination_checks init_heap
                (set_limit (Some 10)
                   (options_literal (W := ResponseRecorder) init_globals))
                (mkSearchRequest None [] (Some 1000) None))
      as (_ & _ & Hexceeds & _).
    destruct (Hexceeds 10 1000) as [Hcite _];
      [reflexivity | reflexivity | lia |].
    apply Hcite. left. lia.
  - destruct (pagination_checks init_heap
                (options_literal (W := ResponseRecorder) init_globals)
                (mkSearchRequest None [] (Some 10) (Some (-5))))
      as (_ & _ & _ & Hoffset & _).
    destruct (Hoffset (-5)) as [Hpass _]; [reflexivity | lia |].
    apply Hpass. reflexivity.
Defined.

(** ** Order clauses *)

Lemma validateOrderBy_fields {W : Type} `{ResponseWriter W}
    (h : Heap) (opts : Options W) (l1 l2 : list OrderClause) :
  map OrderClause_Field l1 = map OrderClause_Field l2 →
  validateOrderBy h opts l1 = validateOrderBy h opts l2.
Proof.
  revert l2. induction l1 as [| o1 rest1 IH]; intros [| o2 rest2] Hmap;
    try done.
  simpl in Hmap. injection Hmap as Hfield Hrest.
  simpl. rewrite Hfield. by rewrite (IH rest2).
Qed.

Lemma alter_direction_fields (i : nat) (d : OrderDirection)
    (l : list OrderClause) :
  map OrderClause_Field
    (alter (λ o, mkOrderClause (OrderClause_Field o) d) i l)
  = map OrderClause_Field l.
Proof.
  revert i. induction l as [| o rest IH]; intros [| i]; try done.
  simpl. f_equal. apply IH.
Qed.

(** C10. Validation never looks at the direction of an order clause:
    replacing the direction of any clause by any string leaves the result
    of [validateSearchRequest] unchanged, and two requests that differ in
    the directions of their order clauses only have the same result. *)
Theorem validateSearchRequest_ignores_direction {W : Type} `{ResponseWriter W}
    (h : Heap) (opts : Options W) (s : SearchRequest) :
  (∀ (i : nat) (d : OrderDirection),
     validateSearchRequest h opts (setDirection i d s) =
     validateSearchRequest h opts s) ∧
  (∀ clauses : list OrderClause,
     map OrderClause_Field clauses = map OrderClause_Field (OrderBy s) →
     validateSearchRequest h opts
       (mkSearchRequest (Groups s) clauses (Limit s) (Offset s)) =
     validateSearchRequest h opts s).
Proof.
  split.
  - intros i d. unfold validateSearchRequest, setDirection. simpl.
    by rewrite (validateOrderBy_fields h opts _ (OrderBy s))
      by apply alter_direction_fields.
  - intros clauses Hfields. unfold validateSearchRequest. simpl.
    by rewrite (validateOrderBy_fields h opts clauses (OrderBy s)).
Qed.

Lemma validateSearchRequest_ignores_direction_witness :
  validateSearchRequest
    (<[4%positive := {["name"]}]> init_heap)
    (options_literal (W := ResponseRecorder) init_globals)
    (mkSearchRequest None [mkOrderClause "name" "foo"] None None)
  = None.
Proof.
  destruct (validateSearchRequest_ignores_direction
              (<[4%positive := {["name"]}]> init_heap)
              (options_literal (W := ResponseRecorder) init_globals)
              (mkSearchRequest None [mkOrderClause "name" "asc"] None None))
    as [_ Hsame].
  etrans; [apply (Hsame [mkOrderClause "name" "foo"]); reflexivity |].
  vm_compute. reflexivity.
Defined.

(** ** Configuration: map objects and the options that write them *)

Lemma map_set_all_contents (l : loc) (values : list string) (h : Heap) :
  ∃ h', map_set_all (Some l) values h = Some (tt, h') ∧
        h' !!! l = list_to_set values ∪ h !!! l ∧
        ∀ l', l' ≠ l → h' !! l' = h !! l'.
Proof.
  revert h. induction values as [| v rest IH]; intros h.
  - exists h. split; [done |]. split; [| done].
    simpl. by rewrite (left_id_L ∅ (∪)).
  - destruct (IH (<[l := {[v]} ∪ h !!! l]> h)) as (h' & Hrun & Hl & Hother).
    exists h'. split; [| split].
    + simpl. unfold bind, map_set. exact Hrun.
    + rewrite Hl, lookup_total_insert_eq. simpl.
      by rewrite (assoc_L (∪)), (comm_L (∪) (list_to_set rest)).
    + intros l' Hne. rewrite (Hother l' Hne). by apply lookup_insert_ne.
Qed.

Lemma replace_contents (l : loc) (values : list string) (h : Heap) :
  ∃ h', (map_clear (Some l) ;;; map_set_all (Some l) values) h
        = Some (tt, h') ∧
        h' !!! l = list_to_set values ∧
        ∀ l', l' ≠ l → h' !! l' = h !! l'.
Proof.
  destruct (map_set_all_contents l values (<[l := ∅]> h))
    as (h' & Hrun & Hl & Hother).
  exists h'. split; [| split].
  - unfold bind, map_clear. exact Hrun.
  - rewrite Hl, lookup_total_insert_eq. by rewrite (right_id_L ∅ (∪)).
  - intros l' Hne. rewrite (Hother l' Hne). by apply lookup_insert_ne.
Qed.

Section OptionFacts.
Context {W : Type} `{ResponseWriter W}.

Lemma apply_opts_app (opts1 opts2 : list (Option W)) (o : Options W)
    (h : Heap) :
  apply_opts (opts1 ++ opts2) o h =
  bind (apply_opts opts1 o) (apply_opts opts2) h.
Proof.
  revert o h. induction opts1 as [| opt rest IH]; intros o h; [done |].
  simpl. unfold bind.
  destruct (opt o h) as [[o' h'] |]; [| done].
  by rewrite IH.
Qed.

Lemma WithFilterFields_run (fields : list string) (o : Options W)
    (l : loc) (h : Heap) :
  allowedFilterFields o = Some l →
  ∃ h', WithFilterFields fields o h = Some (o, h') ∧
        h' !!! l = list_to_set fields ∧
        ∀ l', l' ≠ l → h' !! l' = h !! l'.
Proof.
  intros Hl. unfold WithFilterFields. rewrite Hl.
  destruct (replace_contents l fields h) as (h' & Hrun & Hset & Hother).
  exists h'. split; [| done].
  unfold bind in *.
  destruct (map_clear (Some l) h) as [[[] h1] |]; [| done].
  by rewrite Hrun.
Qed.

Lemma WithExtraFilterFields_run (fields : list string) (o : Options W)
    (l : loc) (h : Heap) :
  allowedFilterFields o = Some l →
  ∃ h', WithExtraFilterFields fields o h = Some (o, h') ∧
        h' !!! l = list_to_set fields ∪ h !!! l ∧
        ∀ l', l' ≠ l → h' !! l' = h !! l'.
Proof.
  intros Hl. unfold WithExtraFilterFields. rewrite Hl.
  destruct (map_set_all_contents l fields h) as (h' & Hrun & Hset & Hother).
  exists h'. split; [| done]. unfold bind. by rewrite Hrun.
Qed.

Lemma WithOrderFields_run (fields : list string) (o : Options W)
    (l : loc) (h : Heap) :
  allowedOrderFields o = Some l →
  ∃ h', WithOrderFields fields o h = Some (o, h') ∧
        h' !!! l = list_to_set fields ∧
        ∀ l', l' ≠ l → h' !! l' = h !! l'.
Proof.
  intros Hl. unfold WithOrderFields. rewrite Hl.
  destruct (replace_contents l fields h) as (h' & Hrun & Hset & Hother).
  exists h'. split; [| done].
  unfold bind in *.
  destruct (map_clear (Some l) h) as [[[] h1] |]; [| done].
  by rewrite Hrun.
Qed.

Lemma WithExtraOrderFields_run (fields : list string) (o : Options W)
    (l : loc) (h : Heap) :
  allowedOrderFields o = Some l →
  ∃ h', WithExtraOrderFields fields o h = Some (o, h') ∧
        h' !!! l = list_to_set fields ∪ h !!! l ∧
        ∀ l', l' ≠ l → h' !! l' = h !! l'.
Proof.
  intros Hl. unfold WithExtraOrderFields. rewrite Hl.
  destruct (map_set_all_contents l fields h) as (h' & Hrun & Hset & Hother).
  exists h'. split; [| done]. unfold bind. by rewrite Hrun.
Qed.
End OptionFacts.

(** Running two options one after the other. *)
Lemma apply_opts_two {W : Type} `{ResponseWriter W}
    (a b : Option W) (o : Options W) (h h1 h2 : Heap) :
  a o h = Some (o, h1) → b o h1 = Some (o, h2) →
  apply_opts [a; b] o h = Some (o, h2).
Proof. intros Ha Hb. simpl. unfold bind. by rewrite Ha, Hb. Qed.

(** C5. Options apply in the order given.  On the filter fields and on the
    order fields alike, whatever the set held before: an extension applied
    after a replacement leaves the union of the replacing values and the
    extension, and a replacement applied after an extension leaves the
    replacing values only.  Applying a list of options made of two parts is
    applying the first part, then the second. *)
Theorem replace_extend_order_sensitive {W : Type} `{ResponseWriter W}
    (o : Options W) (h : Heap) (lf lo : loc) (fs es : list string) :
  allowedFilterFields o = Some lf →
  allowedOrderFields o = Some lo →
  (∃ h', apply_opts [WithFilterFields fs; WithExtraFilterFields es] o h
         = Some (o, h') ∧
         contents h' (allowedFilterFields o)
         = list_to_set fs ∪ list_to_set es) ∧
  (∃ h', apply_opts [WithExtraFilterFields es; WithFilterFields fs] o h
         = Some (o, h') ∧
         contents h' (allowedFilterFields o) = list_to_set fs) ∧
  (∃ h', apply_opts [WithOrderFields fs; WithExtraOrderFields es] o h
         = Some (o, h') ∧
         contents h' (allowedOrderFields o)
         = list_to_set fs ∪ list_to_set es) ∧
  (∃ h', apply_opts [WithExtraOrderFields es; WithOrderFields fs] o h
         = Some (o, h') ∧
         contents h' (allowedOrderFields o) = list_to_set fs) ∧
  (∀ opts1 opts2 : list (Option W),
     apply_opts (opts1 ++ opts2) o h =
     bind (apply_opts opts1 o) (apply_opts opts2) h).
Proof.
  intros Hf Ho.
  split; [| split; [| split; [| split]]].
  - destruct (WithFilterFields_run fs o lf h Hf) as (h1 & R1 & S1 & _).
    destruct (WithExtraFilterFields_run es o lf h1 Hf) as (h2 & R2 & S2 & _).
    exists h2. split; [by apply (apply_opts_two _ _ o h h1 h2) |].
    rewrite Hf. simpl. rewrite S2, S1. apply (comm_L (∪)).
  - destruct (WithExtraFilterFields_run es o lf h Hf) as (h1 & R1 & _).
    destruct (WithFilterFields_run fs o lf h1 Hf) as (h2 & R2 & S2 & _).
    exists h2. split; [by apply (apply_opts_two _ _ o h h1 h2) |].
    by rewrite Hf.
  - destruct (WithOrderFields_run fs o lo h Ho) as (h1 & R1 & S1 & _).
    destruct (WithExtraOrderFields_run es o lo h1 Ho) as (h2 & R2 & S2 & _).
    exists h2. split; [by apply (apply_opts_two _ _ o h h1 h2) |].
    rewrite Ho. simpl. rewrite S2, S1. apply (comm_L (∪)).
  - destruct (WithExtraOrderFields_run es o lo h Ho) as (h1 & R1 & _).
    destruct (WithOrderFields_run fs o lo h1 Ho) as (h2 & R2 & S2 & _).
    exists h2. split; [by apply (apply_opts_two _ _ o h h1 h2) |].
    by rewrite Ho.
  - intros opts1 opts2. apply apply_opts_app.
Qed.

Lemma replace_extend_order_sensitive_witness :
  (∃ h', apply_opts [WithFilterFields ["name"];
                     WithExtraFilterFields ["email"]]
           (options_literal (W := ResponseRecorder) init_globals) init_heap
         = Some (options_literal init_globals, h') ∧
         contents h' (Some 3%positive) = {["name"]} ∪ {["email"]}) ∧
  (∃ h', apply_opts [WithExtraFilterFields ["email"];
                     WithFilterFields ["name"]]
           (options_literal (W := ResponseRecorder) init_globals) init_heap
         = Some (options_literal init_globals, h') ∧
         contents h' (Some 3%positive) = {["name"]}).
Proof.
  destruct (replace_extend_order_sensitive
              (options_literal (W := ResponseRecorder) init_globals)
              init_heap 3%positive 4%positive ["name"] ["email"]
              eq_refl eq_refl)
    as ((h1 & R1 & S1) & (h2 & R2 & S2) & _).
  split.
  - exists h1. split; [exact R1 |].
    etrans; [exact S1 |]. vm_compute. reflexivity.
  - exists h2. split; [exact R2 |].
    etrans; [exact S2 |]. vm_compute. reflexivity.
Defined.

(** ** Configuration: the defaults are shared, not cloned *)

(** Whatever the options, the map fields of a handler's configuration hold
    the addresses of the default maps when the options start to run. *)
Lemma options_literal_aliases_defaults {W : Type} `{ResponseWriter W}
    (G : Globals W) :
  allowedLogicalOperators (options_literal G) = defaultLogicalOperators G ∧
  allowedRelationalOperators (options_literal G)
  = defaultRelationalOperators G ∧
  allowedFilterFields (options_literal G) = defaultFilterFields G ∧
  allowedOrderFields (options_literal G) = defaultOrderFields G.
Proof. done. Qed.

(** Replacing the filter fields of one handler replaces the default filter
    fields of the process. *)
Lemma WithFilterFields_overwrites_default {W : Type} `{ResponseWriter W}
    (G : Globals W) (l : loc) (fields : list string) (h : Heap) :
  defaultFilterFields G = Some l →
  ∃ o h', NewSearchHandler_options G [WithFilterFields fields] h
          = Some (o, h') ∧
          contents h' (defaultFilterFields G) = list_to_set fields.
Proof.
  intros Hl.
  destruct (WithFilterFields_run fields (options_literal G) l h Hl)
    as (h' & Hrun & Hset & _).
  exists (options_literal G), h'. split.
  - unfold NewSearchHandler_options. simpl. unfold bind. by rewrite Hrun.
  - by rewrite Hl.
Qed.

(** C1, evaluated on the code.  After [SetDefaultFilterFields("id")], the
    call [NewSearchHandler(WithFilterFields("name"))] leaves the default
    filter fields equal to {"name"}; and right after package
    initialisation, [NewSearchHandler(WithLogicalOperators("and"))] removes
    "or" from the default logical operators and from the registry
    [logicalOperators] itself.  The defaults are written through, not
    cloned. *)
Theorem NewSearchHandler_writes_through_defaults :
  let G := init_globals (W := ResponseRecorder) in
  (∃ h1 h2,
     snd <$> SetDefaultFilterFields ["id"] G init_heap = Some h1 ∧
     contents h1 (defaultFilterFields G) = {["id"]} ∧
     snd <$> NewSearchHandler decode_reject G [WithFilterFields ["name"]] h1
     = Some h2 ∧
     contents h2 (defaultFilterFields G) = {["name"]} ∧
     contents h2 (defaultFilterFields G) ≠
     contents h1 (defaultFilterFields G)) ∧
  (∃ h2,
     snd <$> NewSearchHandler decode_reject G
               [WithLogicalOperators [AndOperator]] init_heap
     = Some h2 ∧
     contents init_heap (defaultLogicalOperators G) = {["and"; "or"]} ∧
     contents h2 (defaultLogicalOperators G) = {["and"]} ∧
     contents h2 (logicalOperators G) = {["and"]}).
Proof.
  split.
  - eexists _, _.
    split; [vm_compute; reflexivity |].
    split; [vm_compute; reflexivity |].
    split; [vm_compute; reflexivity |].
    split; [vm_compute; reflexivity |].
    vm_compute. discriminate.
  - eexists.
    split; [vm_compute; reflexivity |].
    split; [vm_compute; reflexivity |].
    split; vm_compute; reflexivity.
Qed.

(** ** Middleware: requests without a payload *)

Lemma ServeHTTP_no_payload {W : Type} `{ResponseWriter W}
    (decode : string → error + SearchRequest) (options : Options W)
    (next : Handler W) (h : Heap) (w : W) (r : Request) :
  Values_Get (URL_Query r) (queryParam options) = "" →
  ServeHTTP decode options next h w r =
  if isSearchMandatory options
  then errorHandler options w r (ErrMissingParam (queryParam options))
  else next w r.
Proof.
  intros Hget. unfold ServeHTTP. rewrite Hget. simpl.
  by destruct (isSearchMandatory options).
Qed.

(** C6. When the configured parameter is absent from the query: an endpoint
    that is not mandatory hands the request, as it came, to the downstream
    handler; a mandatory endpoint calls the error handler with the
    missing-parameter error, and its response does not depend on the
    downstream handler, which is not called. *)
Theorem absent_parameter_dispatch {W : Type} `{ResponseWriter W}
    (decode : string → error + SearchRequest) (options : Options W)
    (next : Handler W) (h : Heap) (w : W) (r : Request) :
  URL_Query r !! queryParam options = None →
  (isSearchMandatory options = false →
   ServeHTTP decode options next h w r = next w r) ∧
  (isSearchMandatory options = true →
   ServeHTTP decode options next h w r =
   errorHandler options w r (ErrMissingParam (queryParam options)) ∧
   kind (ErrMissingParam (queryParam options)) = MissingParameter ∧
   ∀ next' : Handler W,
     ServeHTTP decode options next' h w r =
     ServeHTTP decode options next h w r).
Proof.
  intros Habsent.
  assert (Hget : Values_Get (URL_Query r) (queryParam options) = "")
    by (unfold Values_Get; by rewrite Habsent).
  split.
  - intros Hm. by rewrite ServeHTTP_no_payload, Hm.
  - intros Hm. split; [by rewrite ServeHTTP_no_payload, Hm |].
    split; [done |].
    intros next'. by rewrite !ServeHTTP_no_payload, Hm.
Qed.

Lemma absent_parameter_dispatch_witness :
  ServeHTTP decode_empty
    (set_isSearchMandatory false
       (options_literal (W := ResponseRecorder) init_globals))
    probeHandler init_heap NewRecorder (mkRequest ∅ Background)
  = mkRecorder ∅ 200 "no search provided" ∧
  ServeHTTP decode_empty
    (options_literal (W := ResponseRecorder) init_globals)
    probeHandler init_heap NewRecorder (mkRequest ∅ Background)
  = mkRecorder {["Content-Type" := "text/plain"]} 400 "Bad Request".
Proof.
  split.
  - destruct (absent_parameter_dispatch decode_empty
                (set_isSearchMandatory false
                   (options_literal (W := ResponseRecorder) init_globals))
                probeHandler init_heap NewRecorder (mkRequest ∅ Background))
      as [Hpass _]; [reflexivity |].
    rewrite Hpass; reflexivity.
  - destruct (absent_parameter_dispatch decode_empty
                (options_literal (W := ResponseRecorder) init_globals)
                probeHandler init_heap NewRecorder (mkRequest ∅ Background))
      as [_ Hmissing]; [reflexivity |].
    destruct Hmissing as (Herr & _); [reflexivity |].
    rewrite Herr. vm_compute. reflexivity.
Defined.

(** C9. A parameter that is present with the empty string as its value is
    handled as an absent one: the request goes to the downstream handler
    when the endpoint is not mandatory and to the error handler with the
    missing-parameter error when it is, and the decoder plays no part in
    the response. *)
Theorem empty_parameter_is_absent {W : Type} `{ResponseWriter W}
    (decode : string → error + SearchRequest) (options : Options W)
    (next : Handler W) (h : Heap) (w : W) (r : Request)
    (more : list string) :
  URL_Query r !! queryParam options = Some ("" :: more) →
  (isSearchMandatory options = false →
   ServeHTTP decode options next h w r = next w r) ∧
  (isSearchMandatory options = true →
   ServeHTTP decode options next h w r =
   errorHandler options w r (ErrMissingParam (queryParam options)) ∧
   kind (ErrMissingParam (queryParam options)) = MissingParameter) ∧
  (∀ decode' : string → error + SearchRequest,
     ServeHTTP decode' options next h w r =
     ServeHTTP decode options next h w r).
Proof.
  intros Hempty.
  assert (Hget : Values_Get (URL_Query r) (queryParam options) = "")
    by (unfold Values_Get; by rewrite Hempty).
  split; [| split].
  - intros Hm. by rewrite ServeHTTP_no_payload, Hm.
  - intros Hm. split; [| done]. by rewrite ServeHTTP_no_payload, Hm.
  - intros decode'. by rewrite !ServeHTTP_no_payload.
Qed.

Lemma empty_parameter_is_absent_witness :
  ServeHTTP decode_empty
    (options_literal (W := ResponseRecorder) init_globals)
    probeHandler init_heap NewRecorder
    (mkRequest {["q" := [""]]} Background)
  = mkRecorder {["Content-Type" := "text/plain"]} 400 "Bad Request" ∧
  ServeHTTP decode_empty
    (set_isSearchMandatory false
       (options_literal (W := ResponseRecorder) init_globals))
    probeHandler init_heap NewRecorder
    (mkRequest {["q" := [""]]} Background)
  = mkRecorder ∅ 200 "no search provided".
Proof.
  split.
  - destruct (empty_parameter_is_absent decode_empty
                (options_literal (W := ResponseRecorder) init_globals)
                probeHandler init_heap NewRecorder
                (mkRequest {["q" := [""]]} Background) [])
      as (_ & Hmissing & _); [reflexivity |].
    destruct Hmissing as [Herr _]; [reflexivity |].
    rewrite Herr. vm_compute. reflexivity.
  - destruct (empty_parameter_is_absent decode_empty
                (set_isSearchMandatory false
                   (options_literal (W := ResponseRecorder) init_globals))
                probeHandler init_heap NewRecorder
                (mkRequest {["q" := [""]]} Background) [])
      as (Hpass & _); [reflexivity |].
    rewrite Hpass; reflexivity.
Defined.

(** * Further properties of the package *)

Set Warnings "-clear-no-such-hyp".

(** ** Symbols *)

Lemma relational_not_registered (r : RelationalOperator) :
  r ∉ relationalOperators_literal →
  RelationalOperator_Symbol r = "=".
Proof.
  intros Hr. unfold relationalOperators_literal in Hr.
  repeat (apply not_elem_of_cons in Hr; destruct Hr as [? Hr]).
  unfold RelationalOperator_Symbol.
  by rewrite !eqb_false_of_ne.
Qed.

(** X1. Whatever string they are given, the three [Symbol] methods return
    one of the fixed tokens of their table: the input never reaches the
    output unless it is itself such a token. *)
Theorem Symbol_range
    (l : LogicalOperator) (r : RelationalOperator) (d : OrderDirection) :
  LogicalOperator_Symbol l ∈ ["and"; "or"] ∧
  RelationalOperator_Symbol r ∈
    ["="; "<>"; ">"; ">="; "<"; "<="; "like"; "ilike"; "in"] ∧
  OrderDirection_Symbol d ∈ ["asc"; "desc"].
Proof.
  split; [| split].
  - unfold LogicalOperator_Symbol.
    destruct (String.eqb l OrOperator); set_solver.
  - unfold RelationalOperator_Symbol.
    repeat match goal with
           | |- context [String.eqb r ?x] => destruct (String.eqb r x)
           end; set_solver.
  - unfold OrderDirection_Symbol.
    destruct (String.eqb d OrderDesc); set_solver.
Qed.

(** X2. [LogicalOperator.Symbol] and [OrderDirection.Symbol] normalise
    their receiver: they are idempotent, and they return the receiver
    itself exactly when it is a registered value. *)
Theorem Symbol_normalises (l : LogicalOperator) (d : OrderDirection) :
  LogicalOperator_Symbol (LogicalOperator_Symbol l) = LogicalOperator_Symbol l ∧
  (LogicalOperator_Symbol l = l ↔ l ∈ logicalOperators_literal) ∧
  OrderDirection_Symbol (OrderDirection_Symbol d) = OrderDirection_Symbol d ∧
  (OrderDirection_Symbol d = d ↔ d ∈ [OrderAsc; OrderDesc]).
Proof.
  unfold LogicalOperator_Symbol, OrderDirection_Symbol,
    logicalOperators_literal.
  split; [| split; [| split]].
  - by destruct (String.eqb_spec l OrOperator).
  - destruct (String.eqb_spec l OrOperator) as [-> | Hne].
    + split; [set_solver | done].
    + split; [intros <-; set_solver |].
      intros Hin. apply elem_of_cons in Hin as [-> | Hin]; [done |].
      apply elem_of_cons in Hin as [-> | Hin]; [done |].
      by apply elem_of_nil in Hin.
  - by destruct (String.eqb_spec d OrderDesc).
  - destruct (String.eqb_spec d OrderDesc) as [-> | Hne].
    + split; [set_solver | done].
    + split; [intros <-; set_solver |].
      intros Hin. apply elem_of_cons in Hin as [-> | Hin]; [done |].
      apply elem_of_cons in Hin as [-> | Hin]; [done |].
      by apply elem_of_nil in Hin.
Qed.

(** X3. On the nine registered relational operators [Symbol] is injective,
    and the fallback symbol "=" is returned for "eq" and for the
    unregistered values only. *)
Theorem RelationalOperator_Symbol_injective (a b r : RelationalOperator) :
  (a ∈ relationalOperators_literal → b ∈ relationalOperators_literal →
   RelationalOperator_Symbol a = RelationalOperator_Symbol b → a = b) ∧
  (RelationalOperator_Symbol r = "=" ↔
   r = EqualsOperator ∨ r ∉ relationalOperators_literal).
Proof.
  split.
  - unfold relationalOperators_literal. intros Ha Hb Heq.
    repeat (apply elem_of_cons in Ha as [-> | Ha]);
      try (by apply elem_of_nil in Ha);
      repeat (apply elem_of_cons in Hb as [-> | Hb]);
      try (by apply elem_of_nil in Hb);
      first [reflexivity | by vm_compute in Heq].
  - split.
    + intros Heq. destruct (decide (r = EqualsOperator)) as [| Hne];
        [by left | right].
      unfold RelationalOperator_Symbol in Heq.
      unfold relationalOperators_literal.
      repeat match type of Heq with
             | context [String.eqb r ?x] =>
                 destruct (String.eqb_spec r x); [discriminate Heq |]
             end.
      repeat (apply not_elem_of_cons; split; [done |]).
      apply not_elem_of_nil.
    + intros [-> | Hr]; [done | by apply relational_not_registered].
Qed.

Lemma RelationalOperator_Symbol_injective_witness :
  RelationalOperator_Symbol "lt" ≠ RelationalOperator_Symbol "lte".
Proof.
  intros Heq.
  destruct (RelationalOperator_Symbol_injective "lt" "lte" "lt")
    as [Hinj _].
  assert (Habs : "lt" = "lte").
  { apply Hinj; [| | exact Heq]; unfold relationalOperators_literal;
      repeat constructor. }
  discriminate Habs.
Defined.

(** ** What validation accepts *)

Lemma concat_nil_Forall {A : Type} (ls : list (list A)) :
  concat ls = [] ↔ Forall (λ l, l = []) ls.
Proof.
  induction ls as [| l rest IH]; simpl.
  - split; [constructor | done].
  - rewrite Forall_cons. split.
    + intros Happ. apply app_eq_nil in Happ as [-> Hrest].
      split; [done | by apply IH].
    + intros [-> Hrest]. by apply IH.
Qed.

Section Acceptance.
Context {W : Type}.
Variable h : Heap.
Variable opts : Options W.

Lemma orderViolations_nil (l : list OrderClause) :
  concat (map (orderClauseViolations h opts) l) = [] ↔
  Forall (λ o, map_has h (allowedOrderFields opts) (OrderClause_Field o)
               = true) l.
Proof.
  rewrite concat_nil_Forall, Forall_map. apply Forall_iff. intros o.
  unfold orderClauseViolations.
  by destruct (map_has h (allowedOrderFields opts) (OrderClause_Field o)).
Qed.

Lemma filterViolations_nil (l : list Filter) :
  concat (map (filterViolations h opts) l) = [] ↔
  Forall (λ f, map_has h (allowedFilterFields opts) (Filter_Field f) = true ∧
               map_has h (allowedRelationalOperators opts) (Filter_Op f)
               = true) l.
Proof.
  rewrite concat_nil_Forall, Forall_map. apply Forall_iff. intros f.
  unfold filterViolations.
  destruct (map_has h (allowedFilterFields opts) (Filter_Field f)),
    (map_has h (allowedRelationalOperators opts) (Filter_Op f));
    simpl; naive_solver.
Qed.

Lemma groupViolations_nil (g : FilterGroup) :
  groupViolations h opts g = [] ↔
  Forall (λ op, map_has h (allowedLogicalOperators opts) op = true)
    (tree_operators g) ∧
  Forall (λ f, map_has h (allowedFilterFields opts) (Filter_Field f) = true ∧
               map_has h (allowedRelationalOperators opts) (Filter_Op f)
               = true) (tree_filters g).
Proof.
  induction g as [op filters groups IH] using FilterGroup_ind.
  simpl. rewrite Forall_cons, Forall_app, !Forall_concat, !Forall_map.
  rewrite <- filterViolations_nil.
  assert (Hnested :
    concat (map (groupViolations h opts) groups) = [] ↔
    Forall (λ sg, Forall (λ op, map_has h (allowedLogicalOperators opts) op
                                = true) (tree_operators sg)) groups ∧
    Forall (λ sg, Forall (λ f,
       map_has h (allowedFilterFields opts) (Filter_Field f) = true ∧
       map_has h (allowedRelationalOperators opts) (Filter_Op f) = true)
       (tree_filters sg)) groups).
  { rewrite concat_nil_Forall, Forall_map.
    induction IH as [| sg rest Hsg _ IHrest].
    - split; [by split | constructor].
    - rewrite !Forall_cons, Hsg, IHrest. naive_solver. }
  destruct (map_has h (allowedLogicalOperators opts) op); simpl.
  - split.
    + intros Happ. apply app_eq_nil in Happ as [Hf Hg].
      apply Hnested in Hg. naive_solver.
    + intros ((_ & Hops) & Hf & Hfs).
      rewrite Hf. simpl. apply Hnested. by split.
  - split; [done | naive_solver].
Qed.

Lemma validateGroupBody_None (g : FilterGroup) :
  validateGroupBody h opts g = None ↔ groupViolations h opts g = [].
Proof. by rewrite validateGroupBody_first, head_None. Qed.
End Acceptance.

(** X4. The filter tree passes validation exactly when the operator of
    every group of the tree, at any depth, is an allowed logical operator
    and every filter of the tree, at any depth, has an allowed field and an
    allowed relational operator. *)
Theorem validateGroup_accepts_iff {W : Type}
    (h : Heap) (opts : Options W) (g : FilterGroup) :
  validateGroup h opts (Some g) = None ↔
  Forall (λ op, map_has h (allowedLogicalOperators opts) op = true)
    (tree_operators g) ∧
  Forall (λ f, map_has h (allowedFilterFields opts) (Filter_Field f) = true ∧
               map_has h (allowedRelationalOperators opts) (Filter_Op f)
               = true) (tree_filters g).
Proof.
  unfold validateGroup.
  by rewrite validateGroupBody_None, groupViolations_nil.
Qed.

Lemma limitViolations_nil {W : Type} (opts : Options W) (s : SearchRequest) :
  limitViolations opts s = [] ↔
  match Limit s, limit opts with
  | Some l, Some max => 0 ≤ l ≤ max
  | Some l, None => 0 ≤ l
  | None, Some _ => False
  | None, None => True
  end.
Proof.
  unfold limitViolations.
  destruct (Limit s) as [l |], (limit opts) as [max |]; simpl;
    try (destruct (Z.ltb_spec l 0)); try (destruct (Z.gtb_spec l max));
    simpl; split; try done; try lia.
Qed.

Lemma offsetViolations_nil (s : SearchRequest) :
  offsetViolations s = [] ↔
  match Offset s with
  | Some o => 0 ≤ o
  | None => True
  end.
Proof.
  unfold offsetViolations.
  destruct (Offset s) as [o |]; [| done].
  destruct (Z.ltb_spec o 0); split; try done; lia.
Qed.

Lemma validateSearchRequest_None {W : Type}
    (h : Heap) (opts : Options W) (s : SearchRequest) :
  validateSearchRequest h opts s = None ↔
  match Limit s, limit opts with
  | Some l, Some max => 0 ≤ l ≤ max
  | Some l, None => 0 ≤ l
  | None, Some _ => False
  | None, None => True
  end ∧
  match Offset s with
  | Some o => 0 ≤ o
  | None => True
  end ∧
  Forall (λ o, map_has h (allowedOrderFields opts) (OrderClause_Field o)
               = true) (OrderBy s) ∧
  match Groups s with
  | Some g =>
      Forall (λ op, map_has h (allowedLogicalOperators opts) op = true)
        (tree_operators g) ∧
      Forall (λ f,
        map_has h (allowedFilterFields opts) (Filter_Field f) = true ∧
        map_has h (allowedRelationalOperators opts) (Filter_Op f) = true)
        (tree_filters g)
  | None => True
  end.
Proof.
  rewrite validateSearchRequest_first, head_None.
  unfold requestViolations.
  rewrite <- limitViolations_nil, <- offsetViolations_nil,
    <- orderViolations_nil.
  assert (Htree : treeViolations h opts (Groups s) = [] ↔
    match Groups s with
    | Some g =>
        Forall (λ op, map_has h (allowedLogicalOperators opts) op = true)
          (tree_operators g) ∧
        Forall (λ f,
          map_has h (allowedFilterFields opts) (Filter_Field f) = true ∧
          map_has h (allowedRelationalOperators opts) (Filter_Op f) = true)
          (tree_filters g)
    | None => True
    end).
  { destruct (Groups s) as [g |]; [apply groupViolations_nil | done]. }
  rewrite <- Htree.
  split.
  - intros Happ.
    apply app_eq_nil in Happ as [-> Happ].
    apply app_eq_nil in Happ as [-> Happ].
    by apply app_eq_nil in Happ as [-> ->].
  - by intros (-> & -> & -> & ->).
Qed.

(** X5. A request passes validation exactly when: its limit, if present,
    is not negative, and with a ceiling configured it is present and not
    above the ceiling; its offset, if present, is not negative; every order
    clause names an allowed order field; and every group and filter of its
    filter tree is allowed. *)
Theorem validateSearchRequest_accepts_iff {W : Type}
    (h : Heap) (opts : Options W) (s : SearchRequest) :
  validateSearchRequest h opts s = None ↔
  match Limit s, limit opts with
  | Some l, Some max => 0 ≤ l ≤ max
  | Some l, None => 0 ≤ l
  | None, Some _ => False
  | None, None => True
  end ∧
  match Offset s with
  | Some o => 0 ≤ o
  | None => True
  end ∧
  Forall (λ o, map_has h (allowedOrderFields opts) (OrderClause_Field o)
               = true) (OrderBy s) ∧
  match Groups s with
  | Some g =>
      Forall (λ op, map_has h (allowedLogicalOperators opts) op = true)
        (tree_operators g) ∧
      Forall (λ f,
        map_has h (allowedFilterFields opts) (Filter_Field f) = true ∧
        map_has h (allowedRelationalOperators opts) (Filter_Op f) = true)
        (tree_filters g)
  | None => True
  end.
Proof. apply validateSearchRequest_None. Qed.

Lemma groupViolations_mapFilters {W : Type}
    (h : Heap) (opts : Options W) (f : Filter → Filter) (g : FilterGroup) :
  (∀ x, Filter_Field (f x) = Filter_Field x) →
  (∀ x, Filter_Op (f x) = Filter_Op x) →
  groupViolations h opts (mapFilters f g) = groupViolations h opts g.
Proof.
  intros Hfield Hop.
  induction g as [op filters groups IH] using FilterGroup_ind.
  simpl. f_equal. f_equal.
  - rewrite map_map. f_equal. apply map_ext. intros x.
    unfold filterViolations. by rewrite Hfield, Hop.
  - rewrite map_map. f_equal.
    induction IH as [| sg rest Hsg _ IHrest]; [done |].
    simpl. by rewrite Hsg, IHrest.
Qed.

(** X6. Validation never reads the value of a filter: replacing the values
    of the filters of a request, anywhere in the tree and by any strings,
    leaves the result of [validateSearchRequest] unchanged. *)
Theorem validateSearchRequest_ignores_values {W : Type}
    (h : Heap) (opts : Options W) (s : SearchRequest)
    (newValue : Filter → string) :
  validateSearchRequest h opts (withValues newValue s) =
  validateSearchRequest h opts s.
Proof.
  rewrite !validateSearchRequest_first. unfold requestViolations.
  f_equal. f_equal. f_equal. f_equal. simpl.
  destruct (Groups s) as [g |]; [| done].
  simpl. by apply groupViolations_mapFilters.
Qed.

Lemma map_has_subseteq (h h' : Heap) (m m' : mapref) (k : string) :
  contents h m ⊆ contents h' m' →
  map_has h m k = true → map_has h' m' k = true.
Proof.
  unfold map_has. intros Hsub Hk.
  apply bool_decide_eq_true. apply bool_decide_eq_true in Hk.
  by apply Hsub.
Qed.

(** X7. Validation is monotone in the configuration: a request accepted
    under one configuration is accepted under any configuration whose four
    allow-lists contain those of the first and whose ceiling is absent or
    at least as high. *)
Theorem validateSearchRequest_monotone {W : Type}
    (h h' : Heap) (o o' : Options W) (s : SearchRequest) :
  at_least_as_permissive h o h' o' →
  validateSearchRequest h o s = None →
  validateSearchRequest h' o' s = None.
Proof.
  intros (Hlog & Hrel & Hff & Hof & Hlim).
  rewrite !validateSearchRequest_None.
  intros (Hl & Hoff & Hord & Htree).
  split; [| split; [done | split]].
  - destruct (Limit s) as [l |], (limit o) as [max |],
      (limit o') as [max' |]; try done; lia.
  - eapply Forall_impl; [exact Hord |]. intros c.
    by apply map_has_subseteq.
  - destruct (Groups s) as [g |]; [| done].
    destruct Htree as [Hops Hfs]. split.
    + eapply Forall_impl; [exact Hops |]. intros op.
      by apply map_has_subseteq.
    + eapply Forall_impl; [exact Hfs |]. intros f [Hfield Hop].
      split; by eapply map_has_subseteq.
Qed.

Lemma validateSearchRequest_monotone_witness :
  validateSearchRequest
    (<[3%positive := {["id"; "name"]}]> init_heap)
    (set_limit (Some 50) (options_literal (W := ResponseRecorder) init_globals))
    (mkSearchRequest
       (Some (mkFilterGroup "and" [mkFilter "id" "eq" "7"] []))
       [] (Some 10) None)
  = None.
Proof.
  apply (validateSearchRequest_monotone
           (<[3%positive := {["id"]}]> init_heap)
           (<[3%positive := {["id"; "name"]}]> init_heap)
           (set_limit (Some 10)
              (options_literal (W := ResponseRecorder) init_globals))
           (set_limit (Some 50)
              (options_literal (W := ResponseRecorder) init_globals))).
  - unfold at_least_as_permissive.
    split; [apply (bool_decide_unpack _); vm_compute; exact I |].
    split; [apply (bool_decide_unpack _); vm_compute; exact I |].
    split; [apply (bool_decide_unpack _); vm_compute; exact I |].
    split; [apply (bool_decide_unpack _); vm_compute; exact I |].
    simpl. lia.
  - vm_compute. reflexivity.
Defined.

(** ** What a validation error says *)

Lemma elem_of_concat_map {A B : Type} (f : A → list B) (l : list A) (x : B) :
  x ∈ concat (map f l) ↔ ∃ y, y ∈ l ∧ x ∈ f y.
Proof.
  induction l as [| a rest IH]; simpl.
  - split; [by intros ?%elem_of_nil | by intros (y & ?%elem_of_nil & _)].
  - rewrite elem_of_app, IH. split.
    + intros [Hx | (y & Hy & Hx)].
      * exists a. split; [apply list_elem_of_here | done].
      * exists y. split; [by apply list_elem_of_further | done].
    + intros (y & Hy & Hx). apply elem_of_cons in Hy as [-> | Hy].
      * by left.
      * right. by exists y.
Qed.

Lemma tree_cause_nested {W : Type} (h : Heap) (opts : Options W)
    (op : LogicalOperator) (filters : list Filter)
    (groups : list FilterGroup) (sg : FilterGroup) (e : error) :
  sg ∈ groups → tree_cause h opts sg e →
  tree_cause h opts (mkFilterGroup op filters groups) e.
Proof.
  intros Hsg. destruct e; simpl; try done.
  - intros [Hin Hno]. split; [| done].
    apply list_elem_of_further, elem_of_concat_map. by exists sg.
  - intros (f & Hin & Hrest). exists f. split; [| done].
    apply elem_of_app. right. apply elem_of_concat_map. by exists sg.
  - intros (f & Hin & Hrest). exists f. split; [| done].
    apply elem_of_app. right. apply elem_of_concat_map. by exists sg.
Qed.

Lemma groupViolations_cause {W : Type} (h : Heap) (opts : Options W)
    (g : FilterGroup) (e : error) :
  e ∈ groupViolations h opts g → tree_cause h opts g e.
Proof.
  induction g as [op filters groups IH] using FilterGroup_ind.
  simpl. rewrite !elem_of_app, !elem_of_concat_map.
  intros [Hop | [(f & Hf & He) | (sg & Hsg & He)]].
  - destruct (map_has h (allowedLogicalOperators opts) op) eqn:Hhas;
      [by apply elem_of_nil in Hop |].
    apply list_elem_of_singleton in Hop as ->. simpl.
    split; [apply list_elem_of_here | done].
  - unfold filterViolations in He. apply elem_of_app in He as [He | He].
    + destruct (map_has h (allowedFilterFields opts) (Filter_Field f))
        eqn:Hhas; [by apply elem_of_nil in He |].
      apply list_elem_of_singleton in He as ->. simpl.
      exists f. split; [apply elem_of_app; by left | done].
    + destruct (map_has h (allowedRelationalOperators opts) (Filter_Op f))
        eqn:Hhas; [by apply elem_of_nil in He |].
      apply list_elem_of_singleton in He as ->. simpl.
      exists f. split; [apply elem_of_app; by left | done].
  - apply (tree_cause_nested h opts op filters groups sg e Hsg).
    rewrite Forall_forall in IH. by apply IH.
Qed.

(** X8. A validation error is truthful.  Each error that
    [validateSearchRequest] can return points at something the request
    really contains and the configuration really rejects: the limit or the
    offset it complains about, an order field of the request that is not
    allowed, or, anywhere in the filter tree, a group operator, a filter
    field or a filter operator (reported with the field of the same
    filter) that is not allowed.  Validation never returns a
    missing-parameter or a decoding error. *)
Theorem validateSearchRequest_error_cause {W : Type}
    (h : Heap) (opts : Options W) (s : SearchRequest) (e : error) :
  validateSearchRequest h opts s = Some e →
  match e with
  | ErrLimitNegative => ∃ l, Limit s = Some l ∧ l < 0
  | ErrLimitMandatory => Limit s = None ∧ is_Some (limit opts)
  | ErrLimitExceeded max =>
      limit opts = Some max ∧ ∃ l, Limit s = Some l ∧ max < l
  | ErrOffsetNegative => ∃ o, Offset s = Some o ∧ o < 0
  | ErrOrderField field =>
      (∃ c, c ∈ OrderBy s ∧ OrderClause_Field c = field) ∧
      map_has h (allowedOrderFields opts) field = false
  | ErrLogicalOperator _ | ErrFilterField _ | ErrRelationalOperator _ _ =>
      ∃ g, Groups s = Some g ∧ tree_cause h opts g e
  | ErrMissingParam _ | ErrDecode _ => False
  end.
Proof.
  rewrite validateSearchRequest_first. intros Hhead.
  apply head_Some_elem_of in Hhead. unfold requestViolations in Hhead.
  rewrite !elem_of_app, elem_of_concat_map in Hhead.
  destruct Hhead as [Hlim | [Hoff | [(c & Hc & He) | Htree]]].
  - unfold limitViolations in Hlim.
    apply elem_of_app in Hlim as [Hlim | Hlim].
    + destruct (Limit s) as [l |]; [| by apply elem_of_nil in Hlim].
      destruct (Z.ltb_spec l 0); [| by apply elem_of_nil in Hlim].
      apply list_elem_of_singleton in Hlim as ->. by exists l.
    + destruct (limit opts) as [max |]; [| by apply elem_of_nil in Hlim].
      destruct (Limit s) as [l |].
      * destruct (Z.gtb_spec l max); [| by apply elem_of_nil in Hlim].
        apply list_elem_of_singleton in Hlim as ->.
        split; [done |]. exists l. split; [done | lia].
      * apply list_elem_of_singleton in Hlim as ->. by split.
  - unfold offsetViolations in Hoff.
    destruct (Offset s) as [o |]; [| by apply elem_of_nil in Hoff].
    destruct (Z.ltb_spec o 0); [| by apply elem_of_nil in Hoff].
    apply list_elem_of_singleton in Hoff as ->. by exists o.
  - unfold orderClauseViolations in He.
    destruct (map_has h (allowedOrderFields opts) (OrderClause_Field c))
      eqn:Hhas; [by apply elem_of_nil in He |].
    apply list_elem_of_singleton in He as ->.
    split; [| done]. by exists c.
  - destruct (Groups s) as [g |]; [| by apply elem_of_nil in Htree].
    apply groupViolations_cause in Htree.
    destruct e; simpl in Htree; try done; by exists g.
Qed.

Lemma validateSearchRequest_error_cause_witness :
  ∃ g, Some (mkFilterGroup "and" [mkFilter "age" "between" "1"] []) = Some g ∧
       tree_cause init_heap
         (options_literal (W := ResponseRecorder) init_globals) g
         (ErrFilterField "age").
Proof.
  apply (validateSearchRequest_error_cause init_heap
           (options_literal (W := ResponseRecorder) init_globals)
           (mkSearchRequest
              (Some (mkFilterGroup "and" [mkFilter "age" "between" "1"] []))
              [] None None)
           (ErrFilterField "age")).
  vm_compute. reflexivity.
Defined.

(** ** Middleware: requests with a payload *)

Lemma ServeHTTP_payload {W : Type}
    (decode : string → error + SearchRequest) (options : Options W)
    (next : Handler W) (h : Heap) (w : W) (r : Request) :
  Values_Get (URL_Query r) (queryParam options) ≠ "" →
  ServeHTTP decode options next h w r =
  match decode (Values_Get (URL_Query r) (queryParam options)) with
  | inl err => errorHandler options w r err
  | inr search =>
      match validateSearchRequest h options search with
      | Some err => errorHandler options w r err
      | None =>
          next w
            (Request_WithContext r
               (WithValue (Request_Context r) searchKey
                  (SearchRequestPtr (Some search))))
      end
  end.
Proof.
  intros Hne. unfold ServeHTTP. simpl.
  by rewrite (eqb_false_of_ne _ "" Hne).
Qed.

(** X9. A payload that does not decode, or that decodes to a request that
    fails validation, goes to the error handler together with the decoding
    error, respectively the validation error; whatever the downstream
    handler is, it has no part in the response. *)
Theorem ServeHTTP_rejects {W : Type}
    (decode : string → error + SearchRequest) (options : Options W)
    (h : Heap) (w : W) (r : Request) (err : error) :
  Values_Get (URL_Query r) (queryParam options) ≠ "" →
  decode (Values_Get (URL_Query r) (queryParam options)) = inl err ∨
  (∃ search,
     decode (Values_Get (URL_Query r) (queryParam options)) = inr search ∧
     validateSearchRequest h options search = Some err) →
  ∀ next : Handler W,
    ServeHTTP decode options next h w r = errorHandler options w r err.
Proof.
  intros Hne Hfail next. rewrite ServeHTTP_payload by done.
  destruct Hfail as [-> | (search & -> & ->)]; done.
Qed.

Lemma ServeHTTP_rejects_witness :
  ServeHTTP decode_reject
    (options_literal (W := ResponseRecorder) init_globals)
    probeHandler init_heap NewRecorder
    (mkRequest {["q" := ["{notvalidJSON}"]]} Background)
  = mkRecorder {["Content-Type" := "text/plain"]} 400 "Bad Request".
Proof.
  rewrite (ServeHTTP_rejects decode_reject
             (options_literal (W := ResponseRecorder) init_globals)
             init_heap NewRecorder
             (mkRequest {["q" := ["{notvalidJSON}"]]} Background)
             (ErrDecode "invalid character")).
  - vm_compute. reflexivity.
  - vm_compute. discriminate.
  - left. reflexivity.
Defined.

(** X10. A payload that decodes to a request that passes validation
    reaches the downstream handler: the handler is called on a request with
    the same URL query, from which [GetSearchRequest] returns the decoded
    request (also when the incoming context already carried one), and in
    whose context the values of all other keys are as they came. *)
Theorem ServeHTTP_attaches {W : Type}
    (decode : string → error + SearchRequest) (options : Options W)
    (next : Handler W) (h : Heap) (w : W) (r : Request)
    (search : SearchRequest) :
  Values_Get (URL_Query r) (queryParam options) ≠ "" →
  decode (Values_Get (URL_Query r) (queryParam options)) = inr search →
  validateSearchRequest h options search = None →
  ∃ r', ServeHTTP decode options next h w r = next w r' ∧
        URL_Query r' = URL_Query r ∧
        GetSearchRequest r' = Some search ∧
        ∀ key, key ≠ searchKey →
          Context_Value (Request_Context r') key =
          Context_Value (Request_Context r) key.
Proof.
  intros Hne Hdec Hval. eexists. split; [| split; [| split]].
  - rewrite ServeHTTP_payload by done. by rewrite Hdec, Hval.
  - done.
  - unfold GetSearchRequest.
    cbn [Request_WithContext Request_Context Context_Value].
    by rewrite decide_True.
  - intros key Hkey.
    cbn [Request_WithContext Request_Context Context_Value].
    by rewrite decide_False.
Qed.

Lemma ServeHTTP_attaches_witness :
  ∃ r', ServeHTTP decode_empty
          (options_literal (W := ResponseRecorder) init_globals)
          probeHandler init_heap NewRecorder
          (mkRequest {["q" := ["{}"]]} Background)
        = probeHandler NewRecorder r' ∧
        GetSearchRequest r' = Some (mkSearchRequest None [] None None).
Proof.
  destruct (ServeHTTP_attaches decode_empty
              (options_literal (W := ResponseRecorder) init_globals)
              probeHandler init_heap NewRecorder
              (mkRequest {["q" := ["{}"]]} Background)
              (mkSearchRequest None [] None None))
    as (r' & Hrun & _ & Hget & _).
  - vm_compute. discriminate.
  - reflexivity.
  - vm_compute. reflexivity.
  - exists r'. by split.
Defined.

(** X11. With the initial error handler, a request gets one of two
    responses.  A missing parameter on a mandatory endpoint, a payload
    that does not decode and a request that fails validation all get the
    same fixed plain-text 400 response, which does not contain the error
    and in which the downstream handler has no part; in the two other
    cases (no parameter on an endpoint that is not mandatory, a payload
    that decodes and passes validation) the response is the one the
    downstream handler writes. *)
Theorem default_error_response_uniform {W : Type} `{ResponseWriter W}
    (decode : string → error + SearchRequest) (options : Options W)
    (next : Handler W) (h : Heap) (w : W) (r : Request) :
  errorHandler options = defaultErrorHandler_init →
  (Values_Get (URL_Query r) (queryParam options) = "" →
   isSearchMandatory options = true →
   ServeHTTP decode options next h w r = badRequestResponse w) ∧
  (Values_Get (URL_Query r) (queryParam options) ≠ "" →
   ∀ err,
     decode (Values_Get (URL_Query r) (queryParam options)) = inl err →
     ServeHTTP decode options next h w r = badRequestResponse w) ∧
  (Values_Get (URL_Query r) (queryParam options) ≠ "" →
   ∀ search err,
     decode (Values_Get (URL_Query r) (queryParam options)) = inr search →
     validateSearchRequest h options search = Some err →
     ServeHTTP decode options next h w r = badRequestResponse w) ∧
  (Values_Get (URL_Query r) (queryParam options) = "" →
   isSearchMandatory options = false →
   ServeHTTP decode options next h w r = next w r) ∧
  (Values_Get (URL_Query r) (queryParam options) ≠ "" →
   ∀ search,
     decode (Values_Get (URL_Query r) (queryParam options)) = inr search →
     validateSearchRequest h options search = None →
     ServeHTTP decode options next h w r =
     next w
       (Request_WithContext r
          (WithValue (Request_Context r) searchKey
             (SearchRequestPtr (Some search))))) ∧
  (ServeHTTP decode options next h w r = badRequestResponse w ∨
   ∃ r', URL_Query r' = URL_Query r ∧
         ServeHTTP decode options next h w r = next w r').
Proof.
  intros Heh.
  assert (Hbad : ∀ err, errorHandler options w r err = badRequestResponse w)
    by (intros err; by rewrite Heh).
  split; [| split; [| split; [| split; [| split]]]].
  - intros Hempty Hm. by rewrite ServeHTTP_no_payload, Hm.
  - intros Hne err Hdec. by rewrite ServeHTTP_payload, Hdec.
  - intros Hne search err Hdec Hval.
    by rewrite ServeHTTP_payload, Hdec, Hval.
  - intros Hempty Hm. by rewrite ServeHTTP_no_payload, Hm.
  - intros Hne search Hdec Hval.
    by rewrite ServeHTTP_payload, Hdec, Hval.
  - destruct (decide (Values_Get (URL_Query r) (queryParam options) = ""))
      as [Hempty | Hne].
    + rewrite ServeHTTP_no_payload by done.
      destruct (isSearchMandatory options).
      * by left.
      * right. by exists r.
    + rewrite ServeHTTP_payload by done.
      destruct (decode _) as [err | search].
      * by left.
      * destruct (validateSearchRequest h options search).
        -- by left.
        -- right.
           exists (Request_WithContext r
                     (WithValue (Request_Context r) searchKey
                        (SearchRequestPtr (Some search)))).
           by split.
Qed.

Lemma default_error_response_uniform_witness :
  ServeHTTP decode_reject
    (options_literal (W := ResponseRecorder) init_globals)
    probeHandler init_heap NewRecorder (mkRequest ∅ Background)
  = badRequestResponse NewRecorder ∧
  ServeHTTP decode_reject
    (options_literal (W := ResponseRecorder) init_globals)
    probeHandler init_heap NewRecorder
    (mkRequest {["q" := ["{notvalidJSON}"]]} Background)
  = badRequestResponse NewRecorder ∧
  ServeHTTP (λ _, inr (mkSearchRequest None [] (Some (-5)) None))
    (options_literal (W := ResponseRecorder) init_globals)
    probeHandler init_heap NewRecorder
    (mkRequest {["q" := ["{}"]]} Background)
  = badRequestResponse NewRecorder.
Proof.
  split; [| split].
  - destruct (default_error_response_uniform decode_reject
                (options_literal (W := ResponseRecorder) init_globals)
                probeHandler init_heap NewRecorder (mkRequest ∅ Background))
      as (Hmissing & _); [reflexivity |].
    apply Hmissing; reflexivity.
  - destruct (default_error_response_uniform decode_reject
                (options_literal (W := ResponseRecorder) init_globals)
                probeHandler init_heap NewRecorder
                (mkRequest {["q" := ["{notvalidJSON}"]]} Background))
      as (_ & Hdecode & _); [reflexivity |].
    apply (Hdecode ltac:(vm_compute; discriminate)
             (ErrDecode "invalid character")).
    reflexivity.
  - destruct (default_error_response_uniform
                (λ _, inr (mkSearchRequest None [] (Some (-5)) None))
                (options_literal (W := ResponseRecorder) init_globals)
                probeHandler init_heap NewRecorder
                (mkRequest {["q" := ["{}"]]} Background))
      as (_ & _ & Hinvalid & _); [reflexivity |].
    apply (Hinvalid ltac:(vm_compute; discriminate)
             (mkSearchRequest None [] (Some (-5)) None) ErrLimitNegative);
      reflexivity.
Defined.

(** ** Configuration: running the exported options *)

Lemma replace_run {A : Type} (l : loc) (values : list string) (a : A)
    (h : Heap) :
  ∃ h', (map_clear (Some l) ;;; map_set_all (Some l) values ;;; ret a) h
        = Some (a, h') ∧
        h' !!! l = list_to_set values ∧
        ∀ l', l' ≠ l → h' !! l' = h !! l'.
Proof.
  destruct (replace_contents l values h) as (h' & Hrun & Hset & Hother).
  exists h'. split; [| done].
  unfold bind in *.
  destruct (map_clear (Some l) h) as [[[] h1] |]; [| done].
  by rewrite Hrun.
Qed.

Lemma extend_run {A : Type} (l : loc) (values : list string) (a : A)
    (h : Heap) :
  ∃ h', (map_set_all (Some l) values ;;; ret a) h = Some (a, h') ∧
        h' !!! l = list_to_set values ∪ h !!! l ∧
        ∀ l', l' ≠ l → h' !! l' = h !! l'.
Proof.
  destruct (map_set_all_contents l values h) as (h' & Hrun & Hset & Hother).
  exists h'. split; [| done]. unfold bind. by rewrite Hrun.
Qed.

Lemma map_has_list_to_set (h : Heap) (l : loc) (values : list string)
    (k : string) :
  h !!! l = list_to_set values →
  map_has h (Some l) k = true ↔ k ∈ values.
Proof.
  intros Hset. unfold map_has, contents.
  rewrite bool_decide_eq_true, Hset. apply elem_of_list_to_set.
Qed.

Lemma map_has_extended (h h' : Heap) (l : loc) (values : list string)
    (k : string) :
  h' !!! l = list_to_set values ∪ h !!! l →
  map_has h' (Some l) k = true ↔ k ∈ values ∨ map_has h (Some l) k = true.
Proof.
  intros Hset. unfold map_has, contents.
  rewrite !bool_decide_eq_true, Hset, elem_of_union.
  by rewrite elem_of_list_to_set.
Qed.

(** X12. What the set options leave in the allow-lists.  On a
    configuration whose maps are allocated, each of the six set options
    succeeds and returns the configuration it was given; after a replacing
    option ([WithLogicalOperators], [WithRelationalOperators],
    [WithFilterFields], [WithOrderFields]) a key is in the map exactly when
    it is among the given values, and after an extending option
    ([WithExtraFilterFields], [WithExtraOrderFields]) exactly when it is
    among the given values or was in the map before. *)
Theorem set_options_membership {W : Type}
    (o : Options W) (h : Heap) (values : list string) (k : string) :
  maps_allocated o →
  (∃ h', WithLogicalOperators values o h = Some (o, h') ∧
         (map_has h' (allowedLogicalOperators o) k = true ↔ k ∈ values)) ∧
  (∃ h', WithRelationalOperators values o h = Some (o, h') ∧
         (map_has h' (allowedRelationalOperators o) k = true ↔ k ∈ values)) ∧
  (∃ h', WithFilterFields values o h = Some (o, h') ∧
         (map_has h' (allowedFilterFields o) k = true ↔ k ∈ values)) ∧
  (∃ h', WithOrderFields values o h = Some (o, h') ∧
         (map_has h' (allowedOrderFields o) k = true ↔ k ∈ values)) ∧
  (∃ h', WithExtraFilterFields values o h = Some (o, h') ∧
         (map_has h' (allowedFilterFields o) k = true ↔
          k ∈ values ∨ map_has h (allowedFilterFields o) k = true)) ∧
  (∃ h', WithExtraOrderFields values o h = Some (o, h') ∧
         (map_has h' (allowedOrderFields o) k = true ↔
          k ∈ values ∨ map_has h (allowedOrderFields o) k = true)).
Proof.
  intros ([ll Hll] & [lr Hlr] & [lf Hlf] & [lo Hlo]).
  split; [| split; [| split; [| split; [| split]]]].
  - unfold WithLogicalOperators. rewrite Hll.
    destruct (replace_run ll values o h) as (h' & Hrun & Hset & _).
    exists h'. split; [done | by apply map_has_list_to_set].
  - unfold WithRelationalOperators. rewrite Hlr.
    destruct (replace_run lr values o h) as (h' & Hrun & Hset & _).
    exists h'. split; [done | by apply map_has_list_to_set].
  - unfold WithFilterFields. rewrite Hlf.
    destruct (replace_run lf values o h) as (h' & Hrun & Hset & _).
    exists h'. split; [done | by apply map_has_list_to_set].
  - unfold WithOrderFields. rewrite Hlo.
    destruct (replace_run lo values o h) as (h' & Hrun & Hset & _).
    exists h'. split; [done | by apply map_has_list_to_set].
  - unfold WithExtraFilterFields. rewrite Hlf.
    destruct (extend_run lf values o h) as (h' & Hrun & Hset & _).
    exists h'. split; [done | by apply map_has_extended].
  - unfold WithExtraOrderFields. rewrite Hlo.
    destruct (extend_run lo values o h) as (h' & Hrun & Hset & _).
    exists h'. split; [done | by apply map_has_extended].
Qed.

Lemma set_options_membership_witness :
  ∃ h', WithRelationalOperators ["eq"; "ne"]
          (options_literal (W := ResponseRecorder) init_globals) init_heap
        = Some (options_literal init_globals, h') ∧
        (map_has h' (Some 2%positive) "like" = true ↔
         "like" ∈ ["eq"; "ne"]).
Proof.
  destruct (set_options_membership
              (options_literal (W := ResponseRecorder) init_globals)
              init_heap ["eq"; "ne"] "like")
    as (_ & Hrel & _).
  - unfold maps_allocated. simpl. by repeat split.
  - exact Hrel.
Defined.

(** X13. A write into a nil map panics: on a configuration whose map field
    is nil (as in the zero value of [Options]), each set option panics as
    soon as it is given one value, and does nothing when it is given
    none. *)
Theorem set_options_on_nil_map {W : Type}
    (o : Options W) (h : Heap) (v : string) (vs : list string) :
  (allowedLogicalOperators o = None →
   WithLogicalOperators (v :: vs) o h = None ∧
   WithLogicalOperators [] o h = Some (o, h)) ∧
  (allowedRelationalOperators o = None →
   WithRelationalOperators (v :: vs) o h = None ∧
   WithRelationalOperators [] o h = Some (o, h)) ∧
  (allowedFilterFields o = None →
   WithFilterFields (v :: vs) o h = None ∧
   WithExtraFilterFields (v :: vs) o h = None ∧
   WithFilterFields [] o h = Some (o, h) ∧
   WithExtraFilterFields [] o h = Some (o, h)) ∧
  (allowedOrderFields o = None →
   WithOrderFields (v :: vs) o h = None ∧
   WithExtraOrderFields (v :: vs) o h = None ∧
   WithOrderFields [] o h = Some (o, h) ∧
   WithExtraOrderFields [] o h = Some (o, h)).
Proof.
  split; [| split; [| split]]; intros Hnil.
  - unfold WithLogicalOperators. by rewrite Hnil.
  - unfold WithRelationalOperators. by rewrite Hnil.
  - unfold WithFilterFields, WithExtraFilterFields. by rewrite Hnil.
  - unfold WithOrderFields, WithExtraOrderFields. by rewrite Hnil.
Qed.

Lemma set_options_on_nil_map_witness :
  WithFilterFields ["id"]
    (mkOptions "" false None None None
       (defaultErrorHandler_init (W := ResponseRecorder)) None None) ∅
  = None.
Proof.
  destruct (set_options_on_nil_map
              (mkOptions "" false None None None
                 (defaultErrorHandler_init (W := ResponseRecorder)) None None)
              ∅ "id" [])
    as (_ & _ & Hfilter & _).
  destruct Hfilter as [Hpanic _]; [reflexivity | exact Hpanic].
Defined.

(** ** Configuration: what building a handler can and cannot do *)

Section PackageOptions.
Context {W : Type}.

Lemma option_maps_frame (o : Options W) (l l' : loc) :
  Some l ∈ option_maps o → Some l' ∉ option_maps o → l' ≠ l.
Proof. intros Hin Hnot ->. by apply Hnot. Qed.

Lemma package_option_run (opt : Option W) (o : Options W) (h : Heap) :
  PackageOption opt → maps_allocated o →
  ∃ o' h', opt o h = Some (o', h') ∧
           same_maps o o' ∧
           (limit_wf (limit o) → limit_wf (limit o')) ∧
           ∀ l, Some l ∉ option_maps o → h' !! l = h !! l.
Proof.
  intros Hopt ([ll Hll] & [lr Hlr] & [lf Hlf] & [lo Hlo]).
  destruct Hopt.
  - exists (set_queryParam value o), h. by repeat split.
  - exists (set_isSearchMandatory value o), h. by repeat split.
  - unfold WithLogicalOperators. rewrite Hll.
    destruct (replace_run ll values o h) as (h' & Hrun & _ & Hother).
    exists o, h'. repeat split; try done.
    intros l Hl. apply Hother, (option_maps_frame o); [| done].
    unfold option_maps. rewrite Hll. apply list_elem_of_here.
  - unfold WithRelationalOperators. rewrite Hlr.
    destruct (replace_run lr values o h) as (h' & Hrun & _ & Hother).
    exists o, h'. repeat split; try done.
    intros l Hl. apply Hother, (option_maps_frame o); [| done].
    unfold option_maps. rewrite Hlr. repeat constructor.
  - unfold WithLimit. destruct (Z.ltb_spec value 0).
    + exists (set_limit None o), h. by repeat split.
    + exists (set_limit (ptr value) o), h. by repeat split.
  - exists (set_errorHandler eh o), h. by repeat split.
  - unfold WithFilterFields. rewrite Hlf.
    destruct (replace_run lf fields o h) as (h' & Hrun & _ & Hother).
    exists o, h'. repeat split; try done.
    intros l Hl. apply Hother, (option_maps_frame o); [| done].
    unfold option_maps. rewrite Hlf. repeat constructor.
  - unfold WithExtraFilterFields. rewrite Hlf.
    destruct (extend_run lf fields o h) as (h' & Hrun & _ & Hother).
    exists o, h'. repeat split; try done.
    intros l Hl. apply Hother, (option_maps_frame o); [| done].
    unfold option_maps. rewrite Hlf. repeat constructor.
  - unfold WithOrderFields. rewrite Hlo.
    destruct (replace_run lo fields o h) as (h' & Hrun & _ & Hother).
    exists o, h'. repeat split; try done.
    intros l Hl. apply Hother, (option_maps_frame o); [| done].
    unfold option_maps. rewrite Hlo. repeat constructor.
  - unfold WithExtraOrderFields. rewrite Hlo.
    destruct (extend_run lo fields o h) as (h' & Hrun & _ & Hother).
    exists o, h'. repeat split; try done.
    intros l Hl. apply Hother, (option_maps_frame o); [| done].
    unfold option_maps. rewrite Hlo. repeat constructor.
Qed.

Lemma same_maps_allocated (o o' : Options W) :
  same_maps o o' → maps_allocated o → maps_allocated o'.
Proof.
  intros (Hl & Hr & Hf & Ho). unfold maps_allocated.
  by rewrite Hl, Hr, Hf, Ho.
Qed.

Lemma same_maps_option_maps (o o' : Options W) :
  same_maps o o' → option_maps o' = option_maps o.
Proof.
  intros (Hl & Hr & Hf & Ho). unfold option_maps.
  by rewrite Hl, Hr, Hf, Ho.
Qed.

Lemma same_maps_trans (o1 o2 o3 : Options W) :
  same_maps o1 o2 → same_maps o2 o3 → same_maps o1 o3.
Proof.
  intros (Hl & Hr & Hf & Ho) (Hl' & Hr' & Hf' & Ho'). unfold same_maps.
  by rewrite Hl', Hr', Hf', Ho'.
Qed.

Lemma apply_package_options (opts : list (Option W)) (o : Options W)
    (h : Heap) :
  Forall PackageOption opts → maps_allocated o →
  ∃ o' h', apply_opts opts o h = Some (o', h') ∧
           same_maps o o' ∧
           (limit_wf (limit o) → limit_wf (limit o')) ∧
           ∀ l, Some l ∉ option_maps o → h' !! l = h !! l.
Proof.
  intros Hopts. revert o h.
  induction Hopts as [| opt rest Hopt _ IH]; intros o h Halloc.
  - exists o, h. by repeat split.
  - destruct (package_option_run opt o h Hopt Halloc)
      as (o1 & h1 & Hrun1 & Hsame1 & Hlim1 & Hframe1).
    destruct (IH o1 h1 (same_maps_allocated o o1 Hsame1 Halloc))
      as (o2 & h2 & Hrun2 & Hsame2 & Hlim2 & Hframe2).
    exists o2, h2. split; [| split; [| split]].
    + simpl. unfold bind. by rewrite Hrun1.
    + by apply (same_maps_trans o o1 o2).
    + auto.
    + intros l Hl. rewrite Hframe2, Hframe1; try done.
      by rewrite (same_maps_option_maps o o1).
Qed.
End PackageOptions.

(** X14. Building a handler from the exported options cannot panic and
    cannot touch foreign maps: when the four default map variables hold map
    objects, [NewSearchHandler] returns for every list of options made
    with the exported constructors; the ceiling of the handler is absent or
    not negative if the default ceiling is; and every map object other
    than those four is left as it was. *)
Theorem NewSearchHandler_never_panics {W : Type}
    (decode : string → error + SearchRequest) (G : Globals W)
    (opts : list (Option W)) (h : Heap) :
  Forall PackageOption opts → defaults_allocated G →
  ∃ o h', NewSearchHandler_options G opts h = Some (o, h') ∧
          snd <$> NewSearchHandler decode G opts h = Some h' ∧
          (limit_wf (defaultLimit G) → limit_wf (limit o)) ∧
          ∀ l, Some l ∉ [defaultLogicalOperators G;
                         defaultRelationalOperators G;
                         defaultFilterFields G; defaultOrderFields G] →
               h' !! l = h !! l.
Proof.
  intros Hopts Halloc.
  destruct (apply_package_options opts (options_literal G) h Hopts Halloc)
    as (o & h' & Hrun & _ & Hlim & Hframe).
  exists o, h'. split; [done |]. split; [| by split].
  unfold NewSearchHandler, NewSearchHandler_options, bind.
  by rewrite Hrun.
Qed.

Lemma NewSearchHandler_never_panics_witness :
  ∃ o h', NewSearchHandler_options
            (init_globals (W := ResponseRecorder))
            [WithExtraFilterFields ["name"; "email"];
             WithOrderFields ["created_at"; "updated_at"]; WithLimit 10]
            init_heap
          = Some (o, h') ∧
          limit_wf (limit o).
Proof.
  destruct (NewSearchHandler_never_panics decode_reject
              (init_globals (W := ResponseRecorder))
              [WithExtraFilterFields ["name"; "email"];
               WithOrderFields ["created_at"; "updated_at"]; WithLimit 10]
              init_heap)
    as (o & h' & Hrun & _ & Hlim & _).
  - repeat constructor.
  - unfold defaults_allocated. simpl. by repeat split.
  - exists o, h'. split; [exact Hrun |]. apply Hlim. exact I.
Defined.

Lemma lookup_total_frame (h h' : Heap) (l : loc) :
  h' !! l = h !! l → h' !!! l = h !!! l.
Proof. intros Heq. by rewrite !lookup_total_alt, Heq. Qed.

(** X15. When the four maps of a configuration are distinct objects, the
    replacing options for different sets do not interfere: after
    [WithLogicalOperators], [WithRelationalOperators], [WithFilterFields]
    and [WithOrderFields] have run, each allow-list holds exactly the
    values given for it, whatever the lists held before. *)
Theorem replace_options_independent {W : Type}
    (o : Options W) (h : Heap) (ll lr lf lo : loc)
    (logical relational : list string) (filterFields orderFields : list string) :
  option_maps o = [Some ll; Some lr; Some lf; Some lo] →
  NoDup [ll; lr; lf; lo] →
  ∃ h', apply_opts [WithLogicalOperators logical;
                    WithRelationalOperators relational;
                    WithFilterFields filterFields;
                    WithOrderFields orderFields] o h = Some (o, h') ∧
        contents h' (allowedLogicalOperators o) = list_to_set logical ∧
        contents h' (allowedRelationalOperators o) = list_to_set relational ∧
        contents h' (allowedFilterFields o) = list_to_set filterFields ∧
        contents h' (allowedOrderFields o) = list_to_set orderFields.
Proof.
  intros Hmaps Hdup. unfold option_maps in Hmaps.
  injection Hmaps as Hll Hlr Hlf Hlo.
  apply NoDup_cons in Hdup as [Hn1 Hdup].
  apply NoDup_cons in Hdup as [Hn2 Hdup].
  apply NoDup_cons in Hdup as [Hn3 _].
  apply not_elem_of_cons in Hn1 as [Hllr Hn1].
  apply not_elem_of_cons in Hn1 as [Hllf Hn1].
  apply not_elem_of_cons in Hn1 as [Hllo _].
  apply not_elem_of_cons in Hn2 as [Hlrf Hn2].
  apply not_elem_of_cons in Hn2 as [Hlro _].
  apply not_elem_of_cons in Hn3 as [Hlfo _].
  destruct (replace_run ll logical o h) as (h1 & R1 & S1 & F1).
  destruct (replace_run lr relational o h1) as (h2 & R2 & S2 & F2).
  destruct (replace_run lf filterFields o h2) as (h3 & R3 & S3 & F3).
  destruct (replace_run lo orderFields o h3) as (h4 & R4 & S4 & F4).
  exists h4. split; [| split; [| split; [| split]]].
  - simpl. unfold bind at 1 2 3 4.
    unfold WithLogicalOperators at 1. rewrite Hll, R1.
    unfold WithRelationalOperators at 1. rewrite Hlr, R2.
    unfold WithFilterFields at 1. rewrite Hlf, R3.
    unfold WithOrderFields at 1. by rewrite Hlo, R4.
  - rewrite Hll. simpl. rewrite <- S1.
    rewrite (lookup_total_frame h3 h4), (lookup_total_frame h2 h3),
      (lookup_total_frame h1 h2); auto.
  - rewrite Hlr. simpl. rewrite <- S2.
    rewrite (lookup_total_frame h3 h4), (lookup_total_frame h2 h3); auto.
  - rewrite Hlf. simpl. rewrite <- S3.
    rewrite (lookup_total_frame h3 h4); auto.
  - rewrite Hlo. simpl. by rewrite <- S4.
Qed.

Lemma replace_options_independent_witness :
  ∃ h', apply_opts [WithLogicalOperators ["and"];
                    WithRelationalOperators ["eq"];
                    WithFilterFields ["id"];
                    WithOrderFields ["name"]]
          (options_literal (W := ResponseRecorder) init_globals) init_heap
        = Some (options_literal init_globals, h') ∧
        contents h' (Some 1%positive) = list_to_set ["and"] ∧
        contents h' (Some 4%positive) = list_to_set ["name"].
Proof.
  destruct (replace_options_independent
              (options_literal (W := ResponseRecorder) init_globals)
              init_heap 1%positive 2%positive 3%positive 4%positive
              ["and"] ["eq"] ["id"] ["name"])
    as (h' & Hrun & Hl & _ & _ & Ho).
  - reflexivity.
  - apply (bool_decide_unpack _). vm_compute. exact I.
  - exists h'. by repeat split.
Defined.

(** X16. In [NewSearchHandler(opts..., WithLimit(v))] the last ceiling
    wins, and a negative [v] means no ceiling: the handler accepts a
    request that has only a limit exactly when the limit is not negative
    and not above [v], and it accepts a request without limit exactly when
    [v] is negative. *)
Theorem WithLimit_last_wins {W : Type}
    (G : Globals W) (opts : list (Option W)) (v : Z) (h : Heap) :
  Forall PackageOption opts → defaults_allocated G →
  ∃ o h', NewSearchHandler_options G (opts ++ [WithLimit v]) h
          = Some (o, h') ∧
          limit o = (if v <? 0 then None else Some v) ∧
          ∀ (h'' : Heap) (lim : option Z),
            validateSearchRequest h'' o (mkSearchRequest None [] lim None)
            = None ↔
            match lim with
            | Some l => 0 ≤ l ∧ (v < 0 ∨ l ≤ v)
            | None => v < 0
            end.
Proof.
  intros Hopts Halloc.
  destruct (apply_package_options opts (options_literal G) h Hopts Halloc)
    as (o1 & h1 & Hrun & _).
  exists (set_limit (if v <? 0 then None else Some v) o1), h1.
  split; [| split; [done |]].
  - unfold NewSearchHandler_options. rewrite apply_opts_app.
    unfold bind. rewrite Hrun. simpl. unfold bind, WithLimit, ptr.
    by destruct (v <? 0).
  - intros h'' lim. rewrite validateSearchRequest_None. simpl.
    destruct lim as [l |], (Z.ltb_spec v 0); simpl;
      (split; [intros (Hl & _) | intros Hl; repeat split; try constructor]);
      try done; lia.
Qed.

Lemma WithLimit_last_wins_witness :
  ∃ o h', NewSearchHandler_options
            (init_globals (W := ResponseRecorder))
            ([WithLimit 50] ++ [WithLimit 10]) init_heap
          = Some (o, h') ∧
          limit o = Some 10.
Proof.
  destruct (WithLimit_last_wins (init_globals (W := ResponseRecorder))
              [WithLimit 50] 10 init_heap)
    as (o & h' & Hrun & Hlim & _).
  - repeat constructor.
  - unfold defaults_allocated. simpl. by repeat split.
  - exists o, h'. by split.
Defined.

(** ** The package variables *)

Section PackageSetters.
Context {W : Type}.

Lemma package_setter_run (set : Globals W → Exec (Globals W))
    (G : Globals W) (h : Heap) :
  PackageSetter set → defaults_allocated G →
  ∃ G' h', set G h = Some (G', h') ∧
           same_default_maps G G' ∧
           (limit_wf (defaultLimit G) → limit_wf (defaultLimit G')) ∧
           ∀ l, Some l ∉ [defaultLogicalOperators G;
                          defaultRelationalOperators G;
                          defaultFilterFields G; defaultOrderFields G] →
                h' !! l = h !! l.
Proof.
  intros Hset ([ll Hll] & [lr Hlr] & [lf Hlf] & [lo Hlo]).
  destruct Hset.
  - exists (set_defaultQueryParam value G), h. by repeat split.
  - exists (set_defaultSearchMandatory value G), h. by repeat split.
  - unfold SetDefaultLogicalOperators. rewrite Hll.
    destruct (replace_run ll values G h) as (h' & Hrun & _ & Hother).
    exists G, h'. repeat split; try done.
    intros l Hl. apply Hother. intros ->. apply Hl. repeat constructor.
  - unfold SetDefaultRelationalOperators. rewrite Hlr.
    destruct (replace_run lr values G h) as (h' & Hrun & _ & Hother).
    exists G, h'. repeat split; try done.
    intros l Hl. apply Hother. intros ->. apply Hl. repeat constructor.
  - unfold SetDefaultLimit. destruct (Z.ltb_spec value 0).
    + exists (set_defaultLimit None G), h. by repeat split.
    + exists (set_defaultLimit (ptr value) G), h. by repeat split.
  - exists (set_defaultErrorHandler eh G), h. by repeat split.
  - unfold SetDefaultFilterFields. rewrite Hlf.
    destruct (replace_run lf values G h) as (h' & Hrun & _ & Hother).
    exists G, h'. repeat split; try done.
    intros l Hl. apply Hother. intros ->. apply Hl. repeat constructor.
  - unfold SetDefaultOrderFields. rewrite Hlo.
    destruct (replace_run lo values G h) as (h' & Hrun & _ & Hother).
    exists G, h'. repeat split; try done.
    intros l Hl. apply Hother. intros ->. apply Hl. repeat constructor.
Qed.
End PackageSetters.

(** X17. The [SetDefault...] functions keep the package variables well
    formed: when the four default map variables hold map objects, every
    setter returns without panic, none of the map variables is reassigned
    (the setters for sets clear and refill the object in place), the
    default ceiling stays absent or not negative, and map objects other
    than the four default ones are left as they were. *)
Theorem SetDefault_preserves_invariants {W : Type}
    (set : Globals W → Exec (Globals W)) (G : Globals W) (h : Heap) :
  PackageSetter set → defaults_allocated G →
  ∃ G' h', set G h = Some (G', h') ∧
           defaults_allocated G' ∧
           same_default_maps G G' ∧
           (limit_wf (defaultLimit G) → limit_wf (defaultLimit G')) ∧
           ∀ l, Some l ∉ [defaultLogicalOperators G;
                          defaultRelationalOperators G;
                          defaultFilterFields G; defaultOrderFields G] →
                h' !! l = h !! l.
Proof.
  intros Hset Halloc.
  destruct (package_setter_run set G h Hset Halloc)
    as (G' & h' & Hrun & Hsame & Hlim & Hframe).
  exists G', h'. split; [done |]. split; [| done].
  destruct Hsame as (_ & _ & Hl & Hr & Hf & Ho).
  destruct Halloc as (Al & Ar & Af & Ao).
  unfold defaults_allocated. by rewrite Hl, Hr, Hf, Ho.
Qed.

Lemma SetDefault_preserves_invariants_witness :
  ∃ G' h', SetDefaultLimit (-1) (init_globals (W := ResponseRecorder))
             init_heap = Some (G', h') ∧
           defaults_allocated G' ∧ limit_wf (defaultLimit G').
Proof.
  destruct (SetDefault_preserves_invariants (SetDefaultLimit (-1))
              (init_globals (W := ResponseRecorder)) init_heap)
    as (G' & h' & Hrun & Halloc & _ & Hlim & _).
  - constructor.
  - unfold defaults_allocated. simpl. by repeat split.
  - exists G', h'. split; [exact Hrun |]. split; [exact Halloc |].
    apply Hlim. exact I.
Defined.

(** X18. The default sets reach the handlers built without options: after
    a [SetDefault...] function for a set has run, a key is in the
    corresponding allow-list of the configuration that [NewSearchHandler()]
    starts from exactly when it is among the values given to the setter. *)
Theorem SetDefault_sets_reach_handlers {W : Type}
    (G : Globals W) (h : Heap) (values : list string) (k : string) :
  defaults_allocated G →
  (∃ h', SetDefaultLogicalOperators values G h = Some (G, h') ∧
         (map_has h' (allowedLogicalOperators (options_literal G)) k = true
          ↔ k ∈ values)) ∧
  (∃ h', SetDefaultRelationalOperators values G h = Some (G, h') ∧
         (map_has h' (allowedRelationalOperators (options_literal G)) k = true
          ↔ k ∈ values)) ∧
  (∃ h', SetDefaultFilterFields values G h = Some (G, h') ∧
         (map_has h' (allowedFilterFields (options_literal G)) k = true
          ↔ k ∈ values)) ∧
  (∃ h', SetDefaultOrderFields values G h = Some (G, h') ∧
         (map_has h' (allowedOrderFields (options_literal G)) k = true
          ↔ k ∈ values)).
Proof.
  intros ([ll Hll] & [lr Hlr] & [lf Hlf] & [lo Hlo]).
  split; [| split; [| split]]; simpl.
  - unfold SetDefaultLogicalOperators. rewrite Hll.
    destruct (replace_run ll values G h) as (h' & Hrun & Hset & _).
    exists h'. split; [done | by apply map_has_list_to_set].
  - unfold SetDefaultRelationalOperators. rewrite Hlr.
    destruct (replace_run lr values G h) as (h' & Hrun & Hset & _).
    exists h'. split; [done | by apply map_has_list_to_set].
  - unfold SetDefaultFilterFields. rewrite Hlf.
    destruct (replace_run lf values G h) as (h' & Hrun & Hset & _).
    exists h'. split; [done | by apply map_has_list_to_set].
  - unfold SetDefaultOrderFields. rewrite Hlo.
    destruct (replace_run lo values G h) as (h' & Hrun & Hset & _).
    exists h'. split; [done | by apply map_has_list_to_set].
Qed.

Lemma SetDefault_sets_reach_handlers_witness :
  ∃ h', SetDefaultOrderFields ["id"] (init_globals (W := ResponseRecorder))
          init_heap = Some (init_globals, h') ∧
        (map_has h' (Some 4%positive) "name" = true ↔ "name" ∈ ["id"]).
Proof.
  destruct (SetDefault_sets_reach_handlers
              (init_globals (W := ResponseRecorder)) init_heap ["id"] "name")
    as (_ & _ & _ & Horder).
  - unfold defaults_allocated. simpl. by repeat split.
  - exact Horder.
Defined.

(** ** What validation depends on *)

Lemma map_has_contents (h h' : Heap) (m m' : mapref) (k : string) :
  contents h m = contents h' m' → map_has h m k = map_has h' m' k.
Proof. unfold map_has. by intros ->. Qed.

Lemma groupViolations_ext {W : Type}
    (h h' : Heap) (o o' : Options W) (g : FilterGroup) :
  contents h (allowedLogicalOperators o)
  = contents h' (allowedLogicalOperators o') →
  contents h (allowedRelationalOperators o)
  = contents h' (allowedRelationalOperators o') →
  contents h (allowedFilterFields o) = contents h' (allowedFilterFields o') →
  groupViolations h o g = groupViolations h' o' g.
Proof.
  intros Hl Hr Hf.
  induction g as [op filters groups IH] using FilterGroup_ind.
  simpl. rewrite (map_has_contents h h' _ _ op Hl). f_equal. f_equal.
  - f_equal. apply map_ext. intros f. unfold filterViolations.
    by rewrite (map_has_contents h h' _ _ _ Hf),
      (map_has_contents h h' _ _ _ Hr).
  - f_equal. induction IH as [| sg rest Hsg _ IHrest]; [done |].
    simpl. by rewrite Hsg, IHrest.
Qed.

(** X19. Validation depends on the configuration through the contents of
    the four allow-lists and the ceiling only: two configurations that
    agree on these give the same result, error included, on every request.
    The parameter name, the mandatory flag and the error handler play no
    part, nor does any other map object. *)
Theorem validateSearchRequest_ext {W : Type}
    (h h' : Heap) (o o' : Options W) (s : SearchRequest) :
  contents h (allowedLogicalOperators o)
  = contents h' (allowedLogicalOperators o') →
  contents h (allowedRelationalOperators o)
  = contents h' (allowedRelationalOperators o') →
  contents h (allowedFilterFields o) = contents h' (allowedFilterFields o') →
  contents h (allowedOrderFields o) = contents h' (allowedOrderFields o') →
  limit o = limit o' →
  validateSearchRequest h o s = validateSearchRequest h' o' s.
Proof.
  intros Hl Hr Hf Ho Hlim.
  rewrite !validateSearchRequest_first. unfold requestViolations.
  f_equal. f_equal; [unfold limitViolations; by rewrite Hlim |].
  f_equal. f_equal.
  - f_equal. apply map_ext. intros c. unfold orderClauseViolations.
    by rewrite (map_has_contents h h' _ _ _ Ho).
  - destruct (Groups s) as [g |]; [| done].
    simpl. by apply groupViolations_ext.
Qed.

Lemma validateSearchRequest_ext_witness :
  validateSearchRequest init_heap
    (set_queryParam "s"
       (set_isSearchMandatory false
          (options_literal (W := ResponseRecorder) init_globals)))
    (mkSearchRequest None [mkOrderClause "id" "asc"] None None)
  = Some (ErrOrderField "id").
Proof.
  rewrite (validateSearchRequest_ext init_heap init_heap _
             (options_literal (W := ResponseRecorder) init_globals));
    reflexivity.
Defined.

(** X20. On validated filter trees the symbol lookup never falls back.  If
    the allowed logical operators are among the registered ones, every
    group operator of a tree that passes validation is rendered as itself
    by [LogicalOperator.Symbol]; if the allowed relational operators are
    among the registered ones, every filter of such a tree has a
    registered operator. *)
Theorem validated_tree_has_registered_operators {W : Type}
    (h : Heap) (o : Options W) (g : FilterGroup) :
  validateGroup h o (Some g) = None →
  (contents h (allowedLogicalOperators o)
     ⊆ list_to_set logicalOperators_literal →
   Forall (λ op, LogicalOperator_Symbol op = op) (tree_operators g)) ∧
  (contents h (allowedRelationalOperators o)
     ⊆ list_to_set relationalOperators_literal →
   Forall (λ f, Filter_Op f ∈ relationalOperators_literal) (tree_filters g)).
Proof.
  unfold validateGroup.
  rewrite validateGroupBody_None, groupViolations_nil.
  intros [Hops Hfs]. split; intros Hsub.
  - eapply Forall_impl; [exact Hops |]. intros op Hop.
    unfold map_has in Hop. apply bool_decide_eq_true in Hop.
    apply Hsub, elem_of_list_to_set in Hop.
    unfold logicalOperators_literal in Hop.
    apply elem_of_cons in Hop as [-> | Hop]; [done |].
    apply elem_of_cons in Hop as [-> | Hop]; [done |].
    by apply elem_of_nil in Hop.
  - eapply Forall_impl; [exact Hfs |]. intros f [_ Hop].
    unfold map_has in Hop. apply bool_decide_eq_true in Hop.
    by apply Hsub, elem_of_list_to_set in Hop.
Qed.

Lemma validated_tree_has_registered_operators_witness :
  Forall (λ op, LogicalOperator_Symbol op = op)
    (tree_operators (mkFilterGroup "or" [] [mkFilterGroup "and" [] []])).
Proof.
  destruct (validated_tree_has_registered_operators init_heap
              (options_literal (W := ResponseRecorder) init_globals)
              (mkFilterGroup "or" [] [mkFilterGroup "and" [] []]))
    as [Hlogical _].
  - vm_compute. reflexivity.
  - apply Hlogical. apply (bool_decide_unpack _). vm_compute. exact I.
Defined.
